(** * ArtPlayer.vue: the audio/video synchronisation glue

    A shallow embedding of [docs/.vitepress/theme/components/ArtPlayer.vue].
    The component mounts an Artplayer instance and, when audio tracks are
    configured, keeps one hidden [<audio>] element aligned with the player's
    [<video>] element.

    The closure variables of [onMounted] ([audioElement], [isInitializing],
    [currentAudioTrack]) and the parts of the browser they touch (the media
    elements, the children of [document.body], the listeners registered on
    the video element, the console, pending timers) are the fields of one
    [State]; every function of the component is a function on that state.
    JavaScript numbers are binary64 floats, so [NaN] is the real one. *)

From Stdlib Require Import Floats.PrimFloat.
From stdpp Require Import base option list strings.

(** ** Media elements *)

(** The properties of an [HTMLMediaElement] the component reads or writes.
    The video element of the player and the audio elements the component
    creates are both media elements. *)
Record HTMLMediaElement := mkMedia {
  src : string;
  crossOrigin : string;
  display : string;          (* style.display *)
  volume : float;
  muted : bool;
  paused : bool;
  currentTime : float;
  duration : float;
}.

(** What [document.createElement('audio')] returns: nothing loaded, so the
    duration is [NaN]; paused, at position 0, full volume, not muted. *)
Definition new_audio : HTMLMediaElement :=
  mkMedia "" "" "" 1%float false true 0%float nan.

Definition with_src (u : string) (e : HTMLMediaElement) :=
  mkMedia u (crossOrigin e) (display e) (volume e) (muted e) (paused e)
          (currentTime e) (duration e).
Definition with_crossOrigin (c : string) (e : HTMLMediaElement) :=
  mkMedia (src e) c (display e) (volume e) (muted e) (paused e)
          (currentTime e) (duration e).
Definition with_display (d : string) (e : HTMLMediaElement) :=
  mkMedia (src e) (crossOrigin e) d (volume e) (muted e) (paused e)
          (currentTime e) (duration e).
Definition with_volume (v : float) (e : HTMLMediaElement) :=
  mkMedia (src e) (crossOrigin e) (display e) v (muted e) (paused e)
          (currentTime e) (duration e).
Definition with_muted (m : bool) (e : HTMLMediaElement) :=
  mkMedia (src e) (crossOrigin e) (display e) (volume e) m (paused e)
          (currentTime e) (duration e).
Definition with_paused (p : bool) (e : HTMLMediaElement) :=
  mkMedia (src e) (crossOrigin e) (display e) (volume e) (muted e) p
          (currentTime e) (duration e).
Definition with_currentTime (t : float) (e : HTMLMediaElement) :=
  mkMedia (src e) (crossOrigin e) (display e) (volume e) (muted e) (paused e)
          t (duration e).
Definition with_duration (d : float) (e : HTMLMediaElement) :=
  mkMedia (src e) (crossOrigin e) (display e) (volume e) (muted e) (paused e)
          (currentTime e) d.

(** JavaScript's [isNaN] on a number. *)
Definition isNaN (x : float) : bool := PrimFloat.is_nan x.

(** ** Configuration records *)

(** [interface AudioTrack { default?: boolean; html: string; url: string }] *)
Record AudioTrack := mkTrack {
  track_default : option bool;
  html : string;
  url : string;
}.

(** The four native events of the video element the component listens to. *)
Inductive VideoEvent := EvPlay | EvPause | EvSeeked | EvVolumechange.

Global Instance VideoEvent_eq_dec : EqDecision VideoEvent.
Proof. solve_decision. Defined.

(** ** Observable effects

    The calls into the DOM that create, attach, remove, play, pause or
    retune an audio element, and the listener registrations, are appended to
    a trace, oldest first, so that the order of effects can be stated.
    Audio elements are named by the order of their creation. *)
Inductive DomOp :=
| OpPause (a : nat)
| OpRemove (a : nat)
| OpCreate (a : nat)
| OpSetSrc (a : nat) (u : string)
| OpAppend (a : nat)
| OpListen (ev : VideoEvent)
| OpSetVolume (a : nat) (v : float)
| OpSetMuted (a : nat) (m : bool)
| OpSetTime (a : nat) (t : float)
| OpPlay (a : nat).

(** ** The state *)

Record State := mkState {
  (* closure variables of onMounted *)
  audioTracksArray : list AudioTrack;
  currentAudioTrack : AudioTrack;
  audioElement : option nat;
  isInitializing : bool;
  (* the browser *)
  elements : list HTMLMediaElement;   (* every audio element ever created *)
  body : list nat;                    (* audio children of document.body *)
  video : HTMLMediaElement;           (* art.video *)
  listeners : list VideoEvent;        (* listeners registered on art.video *)
  timers : nat;                       (* pending 50 ms callbacks *)
  playAllowed : bool;                 (* would play() be allowed now? *)
  console : list string;              (* console.error lines *)
  trace : list DomOp;
  hostDestroyed : nat;                (* calls of Artplayer's own destroy *)
}.

Definition set_currentAudioTrack (t : AudioTrack) (s : State) : State :=
  mkState (audioTracksArray s) t (audioElement s) (isInitializing s)
          (elements s) (body s) (video s) (listeners s) (timers s)
          (playAllowed s) (console s) (trace s) (hostDestroyed s).
Definition set_audioElement (a : option nat) (s : State) : State :=
  mkState (audioTracksArray s) (currentAudioTrack s) a (isInitializing s)
          (elements s) (body s) (video s) (listeners s) (timers s)
          (playAllowed s) (console s) (trace s) (hostDestroyed s).
Definition set_isInitializing (b : bool) (s : State) : State :=
  mkState (audioTracksArray s) (currentAudioTrack s) (audioElement s) b
          (elements s) (body s) (video s) (listeners s) (timers s)
          (playAllowed s) (console s) (trace s) (hostDestroyed s).
Definition set_elements (l : list HTMLMediaElement) (s : State) : State :=
  mkState (audioTracksArray s) (currentAudioTrack s) (audioElement s)
          (isInitializing s) l (body s) (video s) (listeners s) (timers s)
          (playAllowed s) (console s) (trace s) (hostDestroyed s).
Definition set_body (l : list nat) (s : State) : State :=
  mkState (audioTracksArray s) (currentAudioTrack s) (audioElement s)
          (isInitializing s) (elements s) l (video s) (listeners s) (timers s)
          (playAllowed s) (console s) (trace s) (hostDestroyed s).
Definition set_video (v : HTMLMediaElement) (s : State) : State :=
  mkState (audioTracksArray s) (currentAudioTrack s) (audioElement s)
          (isInitializing s) (elements s) (body s) v (listeners s) (timers s)
          (playAllowed s) (console s) (trace s) (hostDestroyed s).
Definition set_listeners (l : list VideoEvent) (s : State) : State :=
  mkState (audioTracksArray s) (currentAudioTrack s) (audioElement s)
          (isInitializing s) (elements s) (body s) (video s) l (timers s)
          (playAllowed s) (console s) (trace s) (hostDestroyed s).
Definition set_timers (n : nat) (s : State) : State :=
  mkState (audioTracksArray s) (currentAudioTrack s) (audioElement s)
          (isInitializing s) (elements s) (body s) (video s) (listeners s) n
          (playAllowed s) (console s) (trace s) (hostDestroyed s).
Definition set_playAllowed (b : bool) (s : State) : State :=
  mkState (audioTracksArray s) (currentAudioTrack s) (audioElement s)
          (isInitializing s) (elements s) (body s) (video s) (listeners s)
          (timers s) b (console s) (trace s) (hostDestroyed s).
Definition set_console (l : list string) (s : State) : State :=
  mkState (audioTracksArray s) (currentAudioTrack s) (audioElement s)
          (isInitializing s) (elements s) (body s) (video s) (listeners s)
          (timers s) (playAllowed s) l (trace s) (hostDestroyed s).
Definition set_trace (l : list DomOp) (s : State) : State :=
  mkState (audioTracksArray s) (currentAudioTrack s) (audioElement s)
          (isInitializing s) (elements s) (body s) (video s) (listeners s)
          (timers s) (playAllowed s) (console s) l (hostDestroyed s).
Definition set_hostDestroyed (n : nat) (s : State) : State :=
  mkState (audioTracksArray s) (currentAudioTrack s) (audioElement s)
          (isInitializing s) (elements s) (body s) (video s) (listeners s)
          (timers s) (playAllowed s) (console s) (trace s) n.

(** ** DOM primitives *)

Definition emit (op : DomOp) (s : State) : State :=
  set_trace (trace s ++ [op]) s.

Definition update_element (a : nat) (f : HTMLMediaElement → HTMLMediaElement)
    (s : State) : State :=
  set_elements (alter f a (elements s)) s.

(** [el.pause()] *)
Definition el_pause (a : nat) (s : State) : State :=
  emit (OpPause a) (update_element a (with_paused true) s).

(** [el.remove()]: the element leaves its parent. *)
Definition el_remove (a : nat) (s : State) : State :=
  emit (OpRemove a) (set_body (filter (λ b, b ≠ a) (body s)) s).

(** [document.createElement('audio')]; the new element's name is returned. *)
Definition createElement (s : State) : nat * State :=
  let a := length (elements s) in
  (a, emit (OpCreate a) (set_elements (elements s ++ [new_audio]) s)).

(** [document.body.appendChild(el)]: an element already in the body is
    moved to the end. *)
Definition appendChild (a : nat) (s : State) : State :=
  emit (OpAppend a) (set_body (filter (λ b, b ≠ a) (body s) ++ [a]) s).

(** [video.addEventListener(ev, ...)].  Each listener the component
    registers is a fresh closure, so none is ever deduplicated. *)
Definition addEventListener (ev : VideoEvent) (s : State) : State :=
  emit (OpListen ev) (set_listeners (listeners s ++ [ev]) s).

Definition el_set_src (a : nat) (u : string) (s : State) : State :=
  emit (OpSetSrc a u) (update_element a (with_src u) s).
Definition el_set_volume (a : nat) (v : float) (s : State) : State :=
  emit (OpSetVolume a v) (update_element a (with_volume v) s).
Definition el_set_muted (a : nat) (m : bool) (s : State) : State :=
  emit (OpSetMuted a m) (update_element a (with_muted m) s).
Definition el_set_currentTime (a : nat) (t : float) (s : State) : State :=
  emit (OpSetTime a t) (update_element a (with_currentTime t) s).

Definition console_error (msg : string) (s : State) : State :=
  set_console (console s ++ [msg]) s.

(** [el.play().catch(e => console.error('Audio play error:', e))].
    When the browser allows playback the element stops being paused; when
    it refuses, the promise is rejected, the element stays as it was and
    the [catch] handler writes to the console. *)
Definition el_play (a : nat) (s : State) : State :=
  let s := emit (OpPlay a) s in
  if playAllowed s then update_element a (with_paused false) s
  else console_error "Audio play error:" s.

(** ** The host player

    The Artplayer library is not part of this repository.  The component
    uses its accessors [art.volume] and [art.muted] and its [destroy]. *)

(** Modelled from the spec: the host player supplies "current
    volume/mute/paused state accessors"; [art.volume] reads the volume of
    the player's video element. *)
Definition art_volume (s : State) : float := volume (video s).

(** Modelled from the spec: [art.muted] reads the mute flag of the player's
    video element. *)
Definition art_muted (s : State) : bool := muted (video s).

(** Modelled from the spec: writing [art.volume] applies the value to the
    primary element. *)
Definition art_set_volume (v : float) (s : State) : State :=
  set_video (with_volume v (video s)) s.

(** Modelled from the spec: writing [art.muted] applies the flag to the
    primary element. *)
Definition art_set_muted (m : bool) (s : State) : State :=
  set_video (with_muted m (video s)) s.

(** Modelled from the spec: the player's own [destroy]; of what it does
    only the number of calls is kept. *)
Definition originalDestroy (removeHtml : option bool) (s : State) : State :=
  set_hostDestroyed (S (hostDestroyed s)) s.

(** Reading a property of an audio element. Names handed out by
    [createElement] are always in range. *)
Definition element (a : nat) (s : State) : HTMLMediaElement :=
  default new_audio (elements s !! a).

(** ** The component *)

(** [const sync = () => { if (audioElement && !isNaN(audioElement.duration))
      audioElement.currentTime = video.currentTime }] *)
Definition sync (s : State) : State :=
  match audioElement s with
  | Some a =>
      if negb (isNaN (duration (element a s)))
      then el_set_currentTime a (currentTime (video s)) s
      else s
  | None => s
  end.

(** The four listeners.  Every one of them reads the variable
    [audioElement] of the enclosing scope when it runs, not the element that
    existed when it was registered. *)
Definition on_play (s : State) : State :=
  let s := sync s in
  match audioElement s with
  | Some a => el_play a s
  | None => s
  end.

Definition on_pause (s : State) : State :=
  match audioElement s with
  | Some a => el_pause a s
  | None => s
  end.

Definition on_seeked (s : State) : State := sync s.

Definition on_volumechange (s : State) : State :=
  if isInitializing s then s
  else match audioElement s with
       | Some a =>
           let s := el_set_volume a (art_volume s) s in
           let s := el_set_muted a (art_muted s) s in
           if negb (paused (video s)) && negb (art_muted s)
              && paused (element a s)
           then el_play a s
           else s
       | None => s
       end.

Definition listener (ev : VideoEvent) : State → State :=
  match ev with
  | EvPlay => on_play
  | EvPause => on_pause
  | EvSeeked => on_seeked
  | EvVolumechange => on_volumechange
  end.

(** The browser delivers an event of the video element to every listener
    registered for it, in registration order. *)
Definition run_listeners (ev : VideoEvent) (ls : list VideoEvent)
    (s : State) : State :=
  fold_left (λ s l, if decide (l = ev) then listener ev s else s) ls s.

Definition dispatchEvent (ev : VideoEvent) (s : State) : State :=
  run_listeners ev (listeners s) s.

(** [createAudioElement(audioUrl)] *)
Definition createAudioElement (audioUrl : string) (s : State) : State :=
  let s := match audioElement s with
           | Some old => el_remove old (el_pause old s)
           | None => s
           end in
  let '(a, s) := createElement s in
  let s := set_audioElement (Some a) s in
  let s := el_set_src a audioUrl s in
  let s := update_element a (with_crossOrigin "anonymous") s in
  let s := update_element a (with_display "none") s in
  let s := appendChild a s in
  let s := addEventListener EvPlay s in
  let s := addEventListener EvPause s in
  let s := addEventListener EvSeeked s in
  let s := addEventListener EvVolumechange s in
  let s := el_set_volume a (art_volume s) s in
  let s := el_set_muted a (art_muted s) s in
  if negb (paused (video s))
  then el_play a (sync s)
  else s.

(** The handler of the player's ['ready'] event. *)
Definition on_ready (s : State) : State :=
  let s := set_isInitializing true s in
  let s := set_video (with_volume 0%float (video s)) s in
  let s := set_timers (S (timers s)) s in
  if bool_decide (url (currentAudioTrack s) ≠ "")
  then createAudioElement (url (currentAudioTrack s)) s
  else s.

(** The callback handed to [setTimeout(..., 50)]. *)
Definition on_timeout (s : State) : State :=
  let s := art_set_volume 1%float s in
  let s := art_set_muted false s in
  set_isInitializing false s.

(** The [onSelect] callback of the settings entry; [item.html] and
    [item.value] are its two inputs, the returned string is the new
    tooltip. *)
Definition onSelect (item_html item_value : string) (s : State)
    : string * State :=
  match find (λ t, bool_decide (url t = item_value)) (audioTracksArray s) with
  | Some selectedTrack =>
      let s := set_currentAudioTrack selectedTrack s in
      let s := createAudioElement (url selectedTrack) s in
      (item_html, s)
  | None => (html (currentAudioTrack s), s)
  end.

(** The wrapper installed over [art.destroy]. *)
Definition destroy (removeHtml : option bool) (s : State) : State :=
  let s := match audioElement s with
           | Some a => set_audioElement None (el_remove a (el_pause a s))
           | None => s
           end in
  originalDestroy removeHtml s.

(** [onBeforeUnmount]: [art] is set and has a [destroy] once mounted. *)
Definition onBeforeUnmount (s : State) : State := destroy (Some false) s.

(** ** Driving the component

    What can happen to a mounted component: the player and the browser call
    back into it, and the world around it changes. *)
Inductive Op :=
| Ready                                  (* art emits 'ready' *)
| Timeout                                (* a pending 50 ms timer fires *)
| Fire (ev : VideoEvent)                 (* the video element fires ev *)
| Select (item_html item_value : string) (* the user picks a track *)
| Destroy (removeHtml : option bool)     (* art.destroy(...) *)
| Unmount                                (* the component is unmounted *)
| VideoChanged (v : HTMLMediaElement)    (* the video element's state moves *)
| AudioLoaded (a : nat) (d : float)      (* metadata of element a arrives *)
| AudioProgress (a : nat) (t : float)    (* element a's clock advances *)
| AudioEnded (a : nat)                   (* element a pauses by itself *)
| Policy (allowed : bool).               (* the autoplay policy changes *)

Definition step (o : Op) (s : State) : State :=
  match o with
  | Ready => on_ready s
  | Timeout =>
      match timers s with
      | S n => on_timeout (set_timers n s)
      | O => s
      end
  | Fire ev => dispatchEvent ev s
  | Select h v =>
      (* the entry is only added when there is more than one track *)
      if bool_decide (1 < length (audioTracksArray s))
      then snd (onSelect h v s) else s
  | Destroy r => destroy r s
  | Unmount => onBeforeUnmount s
  | VideoChanged v => set_video v s
  | AudioLoaded a d => update_element a (with_duration d) s
  | AudioProgress a t => update_element a (with_currentTime t) s
  | AudioEnded a => update_element a (with_paused true) s
  | Policy b => set_playAllowed b s
  end.

Definition run (ops : list Op) (s : State) : State :=
  fold_left (λ s o, step o s) ops s.

(** [list.find(x => x.default) || list[0]] *)
Definition find_default {A} (is_default : A → option bool) (l : list A)
    : option A :=
  match find (λ x, bool_decide (is_default x = Some true)) l with
  | Some x => Some x
  | None => head l
  end.

(** [audioTracksArray.find(t => t.default) || audioTracksArray[0]] on a
    non-empty list. *)
Definition default_track (first : AudioTrack) (rest : list AudioTrack)
    : AudioTrack :=
  default first (find_default track_default (first :: rest)).

(** The state right after [onMounted] ran with a non-empty track list;
    [log] is what parsing the properties wrote to the console. *)
Definition mounted (log : list string) (first : AudioTrack)
    (rest : list AudioTrack) (v : HTMLMediaElement) (allowed : bool) : State :=
  mkState (first :: rest) (default_track first rest) None false
          [] [] v [] 0 allowed log [] 0.

(** ** Mounting

    [onMounted] reads the properties, builds the player options and, when
    audio tracks are configured, sets up the synchronisation. *)

(** [interface Quality { default?: boolean; html: string; url: string;
      audioUrl?: string }] *)
Record Quality := mkQuality {
  quality_default : option bool;
  quality_html : string;
  quality_url : string;
  quality_audioUrl : option string;
}.

(** A property typed [T[] | string]. *)
Inductive PropValue (A : Type) :=
| PString (s : string)
| PArray (l : list A).
Arguments PString {A} s.
Arguments PArray {A} l.

Record Props := mkProps {
  props_url : option string;
  props_qualities : option (PropValue Quality);
  props_audioTracks : option (PropValue AudioTrack);
  props_poster : option string;
  props_title : option string;
}.

(** What [onMounted] reads from its surroundings. *)
Record Env := mkEnv {
  hasContainer : bool;        (* is artRef.value set? *)
  brandProperty : string;     (* the trimmed value of --vp-c-brand-1 *)
  language : string;          (* navigator.language.toLowerCase() *)
  playerVideo : HTMLMediaElement;   (* the video element the player creates *)
  autoplayAllowed : bool;
}.

(** The entries of [playerOptions] that are not constant flags, and the
    three constants the synchronisation relies on. *)
Record PlayerOptions := mkOptions {
  opt_poster : string;
  opt_title : string;
  opt_volume : float;
  opt_muted : bool;
  opt_autoplay : bool;
  opt_theme : string;
  opt_lang : string;
  opt_quality : option (list Quality);
  opt_url : option string;
}.

(** One entry of the [selector] list handed to [art.setting.add]. *)
Record SelectorItem := mkItem {
  item_html : string;
  item_value : string;
  item_default : bool;
}.

Record Mounted := mkMounted {
  mounted_console : list string;
  playerOptions : PlayerOptions;
  session : option State;                       (* None: no audio tracks *)
  setting : option (string * list SelectorItem) (* tooltip and selector *)
}.

(** ** Parsed values

    What [JSON.parse] returns: any JSON value, not necessarily a list of
    variants. *)
#[warnings="-register-all"]
Inductive JSON :=
| JNull
| JBool (b : bool)
| JNumber (x : float)
| JString (s : string)
| JArray (l : list JSON)
| JObject (fields : list (string * JSON)).

(** The value of a variable typed [T[]]: the list the caller passed, which
    has that type, or whatever [JSON.parse] returned. *)
Inductive Variants (A : Type) :=
| Typed (l : list A)
| Raw (j : JSON).
Arguments Typed {A} l.
Arguments Raw {A} j.

(** Statements complete or throw.  [Untyped] stands for a run that goes on
    with a value outside its declared TypeScript type; what the component
    does from there is not modelled. *)
Inductive Outcome (A : Type) :=
| Normal (a : A)
| Throw (e : string)
| Untyped.
Arguments Normal {A} a.
Arguments Throw {A} e.
Arguments Untyped {A}.

Global Instance Outcome_ret : MRet Outcome := λ A a, Normal a.
Global Instance Outcome_bind : MBind Outcome := λ A B f m,
  match m with
  | Normal a => f a
  | Throw e => Throw e
  | Untyped => Untyped
  end.

(** [try { body } catch (e) { handler }] *)
Definition try_catch {A} (body : Outcome A) (handler : string → Outcome A)
    : Outcome A :=
  match body with
  | Normal a => Normal a
  | Throw e => handler e
  | Untyped => Untyped
  end.

(** [o.key] on a parsed object; [JSON.parse] leaves each key once. *)
Fixpoint get_field (key : string) (fields : list (string * JSON))
    : option JSON :=
  match fields with
  | [] => None
  | (k, v) :: fields => if bool_decide (k = key) then Some v
                        else get_field key fields
  end.

(** JavaScript's truthiness of a parsed value. *)
Definition truthy (j : JSON) : bool :=
  match j with
  | JNull => false
  | JBool b => b
  | JNumber x => negb (PrimFloat.eqb x 0%float || PrimFloat.is_nan x)
  | JString s => negb (bool_decide (s = ""))
  | JArray _ | JObject _ => true
  end.

(** [x.default], as a condition, on an element of a parsed array: reading
    a property of [null] throws a [TypeError] ([None]); numbers, strings,
    booleans and arrays have no such property. *)
Definition default_of (j : JSON) : option bool :=
  match j with
  | JNull => None
  | JObject fields =>
      Some (match get_field "default" fields with
            | Some v => truthy v
            | None => false
            end)
  | _ => Some false
  end.

(** Does [l.find(x => x.default) || l[0]] followed by [.url] throw?  It
    does when it meets [null] before an element with a truthy [default]. *)
Fixpoint find_throws (l : list JSON) : bool :=
  match l with
  | [] => false
  | j :: l =>
      match default_of j with
      | None => true
      | Some true => false
      | Some false => find_throws l
      end
  end.

(** A parsed object that has the type [Quality]. *)
Definition quality_of_json (j : JSON) : option Quality :=
  match j with
  | JObject fields =>
      match get_field "html" fields, get_field "url" fields with
      | Some (JString h), Some (JString u) =>
          match get_field "default" fields, get_field "audioUrl" fields with
          | None, None => Some (mkQuality None h u None)
          | Some (JBool b), None => Some (mkQuality (Some b) h u None)
          | None, Some (JString a) => Some (mkQuality None h u (Some a))
          | Some (JBool b), Some (JString a) =>
              Some (mkQuality (Some b) h u (Some a))
          | _, _ => None
          end
      | _, _ => None
      end
  | _ => None
  end.

(** A parsed object that has the type [AudioTrack]. *)
Definition track_of_json (j : JSON) : option AudioTrack :=
  match j with
  | JObject fields =>
      match get_field "html" fields, get_field "url" fields with
      | Some (JString h), Some (JString u) =>
          match get_field "default" fields with
          | None => Some (mkTrack None h u)
          | Some (JBool b) => Some (mkTrack (Some b) h u)
          | _ => None
          end
      | _, _ => None
      end
  | _ => None
  end.

(** What the code after parsing does with a parsed value [arr]:
    [if (arr && arr.length > 0) { ... arr.find(x => x.default) || arr[0] ... }].
    - [null], [false], [0], the empty string: falsy, no variants;
    - [true] and numbers have no [length]: no variants;
    - a non-empty string has a [length] but no [find]: [TypeError];
    - an array: [find] throws on [null], otherwise the list is used, and is
      in the model when every element has the declared type;
    - an object: its [length] property decides, and it has no [find]. *)
Definition select_variants {A} (decode : JSON → option A) (j : JSON)
    : Outcome (option (list A)) :=
  match j with
  | JNull | JBool _ | JNumber _ => Normal None
  | JString s => if bool_decide (s = "") then Normal None
                 else Throw "TypeError"
  | JArray l =>
      if find_throws l then Throw "TypeError"
      else match mapM decode l with
           | Some typed => Normal (Some typed)
           | None => Untyped
           end
  | JObject fields =>
      match get_field "length" fields with
      | None | Some JNull => Normal None
      | Some (JBool b) => if b then Throw "TypeError" else Normal None
      | Some (JNumber n) => if PrimFloat.ltb 0%float n then Throw "TypeError"
                            else Normal None
      | Some _ => Untyped
      end
  end.

Definition selected {A} (decode : JSON → option A)
    (arr : option (Variants A)) : Outcome (option (list A)) :=
  match arr with
  | None => Normal None
  | Some (Typed l) => Normal (Some l)
  | Some (Raw j) => select_variants decode j
  end.

(** JavaScript's [x || y] on strings and on optional strings. *)
Definition or_string (x : option string) (y : string) : string :=
  match x with
  | Some s => if bool_decide (s = "") then y else s
  | None => y
  end.

(** The single-URL path: [props.url] if it is set and not empty. *)
Definition single_url (url : option string) : option string :=
  match url with
  | Some u => if bool_decide (u = "") then None else Some u
  | None => None
  end.

Section Mount.

(** [JSON.parse], as called on the two properties: it returns the parsed
    value or throws a [SyntaxError]. *)
Variable JSON_parse_qualities : string → Outcome JSON.
Variable JSON_parse_audioTracks : string → Outcome JSON.

(** The block
    [let arr; if (p) { if (typeof p === 'string') { try { arr = JSON.parse(p) }
     catch (e) { console.error(label, e) } } else { arr = p } }]
    with the console threaded through. *)
Definition parse_variants {A} (JSON_parse : string → Outcome JSON)
    (label : string) (p : option (PropValue A)) (console : list string)
    : Outcome (option (Variants A) * list string) :=
  match p with
  | Some (PString s) =>
      if bool_decide (s = "") then mret (None, console)
      else try_catch
             (arr ← JSON_parse s; mret (Some (Raw arr), console))
             (λ e, mret (None, console ++ [label]))
  | Some (PArray l) => mret (Some (Typed l), console)
  | None => mret (None, console)
  end.

(** The choice of [playerOptions.quality] and [playerOptions.url]:
    [if (qualitiesArray && qualitiesArray.length > 0) { ... }
     else if (props.url) { playerOptions.url = props.url }]. *)
Definition source_options (qualitiesArray : option (list Quality))
    (url : option string) : option (list Quality) * option string :=
  match qualitiesArray with
  | Some (q :: qs) =>
      (Some (q :: qs),
       Some (quality_url (default q (find_default quality_default (q :: qs)))))
  | _ => (None, single_url url)
  end.

Definition onMounted (props : Props) (env : Env) : Outcome (option Mounted) :=
  if negb (hasContainer env) then mret None
  else
    let brandColor :=
      if bool_decide (brandProperty env = "") then "#3451b2"
      else brandProperty env in
    '(qualitiesArray, console) ←
      parse_variants JSON_parse_qualities "Failed to parse qualities JSON:"
                     (props_qualities props) [];
    '(audioTracksArray, console) ←
      parse_variants JSON_parse_audioTracks "Failed to parse audioTracks JSON:"
                     (props_audioTracks props) console;
    (* lines 104-112 *)
    qualities ← selected quality_of_json qualitiesArray;
    let '(quality, source) := source_options qualities (props_url props) in
    let playerOptions :=
      mkOptions (or_string (props_poster props) "")
                (or_string (props_title props) "")
                1%float false false brandColor (language env) quality source in
    (* art = new Artplayer(playerOptions); lines 117-118 *)
    audioTracks ← selected track_of_json audioTracksArray;
    match audioTracks with
    | Some (t :: ts) =>
        let s := mounted console t ts (playerVideo env)
                   (autoplayAllowed env) in
        let setting :=
          if bool_decide (1 < length (t :: ts))
          then Some (html (currentAudioTrack s),
                     map (λ track, mkItem (html track) (url track)
                                     (default false (track_default track)))
                         (t :: ts))
          else None in
        mret (Some (mkMounted console playerOptions (Some s) setting))
    | _ => mret (Some (mkMounted console playerOptions None None))
    end.

End Mount.

(** * Definitions used in the proofs *)

(** ** Replaying a trace

    Which audio elements are children of [document.body] after a sequence of
    DOM operations, and the largest number of them attached at any moment of
    that sequence. *)
Definition apply_dom (b : list nat) (op : DomOp) : list nat :=
  match op with
  | OpAppend a => filter (λ c, c ≠ a) b ++ [a]
  | OpRemove a => filter (λ c, c ≠ a) b
  | _ => b
  end.

Definition replay (b : list nat) (tr : list DomOp) : list nat :=
  fold_left apply_dom tr b.

Definition attached_after (tr : list DomOp) : list nat := replay [] tr.

Fixpoint peak (b : list nat) (tr : list DomOp) : nat :=
  match tr with
  | [] => length b
  | op :: tr => length b `max` peak (apply_dom b op) tr
  end.

(** Operations that neither attach nor detach anything. *)
Definition quiet_op (op : DomOp) : Prop :=
  match op with
  | OpAppend _ | OpRemove _ | OpCreate _ | OpListen _ => False
  | _ => True
  end.

(** The listeners present after [n] calls of [createAudioElement]. *)
Definition four : list VideoEvent := [EvPlay; EvPause; EvSeeked; EvVolumechange].

Definition listeners_after (n : nat) : list VideoEvent :=
  concat (replicate n four).

(** ** Listeners only touch the current element

    [quiet s s'] says that [s'] differs from [s] at most in the properties
    of audio elements, the console and a trace suffix without structural
    operations; elements other than the current one keep their [paused]
    flag and no duration changes. *)
Record quiet (s s' : State) : Prop := mkQuiet {
  q_tracks : audioTracksArray s' = audioTracksArray s;
  q_current : currentAudioTrack s' = currentAudioTrack s;
  q_audio : audioElement s' = audioElement s;
  q_init : isInitializing s' = isInitializing s;
  q_len : length (elements s') = length (elements s);
  q_body : body s' = body s;
  q_video : video s' = video s;
  q_listeners : listeners s' = listeners s;
  q_timers : timers s' = timers s;
  q_allowed : playAllowed s' = playAllowed s;
  q_host : hostDestroyed s' = hostDestroyed s;
  q_trace : ∃ d, trace s' = trace s ++ d ∧ Forall quiet_op d;
  q_paused : ∀ i, audioElement s ≠ Some i →
                  paused (element i s') = paused (element i s);
  q_duration : ∀ i, duration (element i s') = duration (element i s);
}.

(** ** The state invariant *)

Record wf (s : State) : Prop := mkWf {
  wf_body : body s = option_list (audioElement s);
  wf_elem : ∀ a, audioElement s = Some a → a < length (elements s);
  wf_listeners : listeners s = listeners_after (length (elements s));
  wf_replay : attached_after (trace s) = body s;
  wf_peak : peak [] (trace s) ≤ 1;
  wf_paused : ∀ i, audioElement s ≠ Some i → paused (element i s) = true;
}.

(** [createAudioElement] up to, and without, its last conditional. *)
Definition teardown_current (s : State) : State :=
  match audioElement s with
  | Some old => el_remove old (el_pause old s)
  | None => s
  end.

Definition build (audioUrl : string) (s : State) : State :=
  let '(a, s) := createElement s in
  let s := set_audioElement (Some a) s in
  let s := el_set_src a audioUrl s in
  let s := update_element a (with_crossOrigin "anonymous") s in
  let s := update_element a (with_display "none") s in
  let s := appendChild a s in
  let s := addEventListener EvPlay s in
  let s := addEventListener EvPause s in
  let s := addEventListener EvSeeked s in
  let s := addEventListener EvVolumechange s in
  let s := el_set_volume a (art_volume s) s in
  el_set_muted a (art_muted s) s.

Definition setup (audioUrl : string) (s : State) : State :=
  build audioUrl (teardown_current s).

(** The trace [setup] adds. *)
Definition setup_ops (audioUrl : string) (s : State) : list DomOp :=
  let a := length (elements s) in
  match audioElement s with
  | Some old => [OpPause old; OpRemove old]
  | None => []
  end ++
  [OpCreate a; OpSetSrc a audioUrl; OpAppend a;
   OpListen EvPlay; OpListen EvPause; OpListen EvSeeked;
   OpListen EvVolumechange;
   OpSetVolume a (art_volume s); OpSetMuted a (art_muted s)].

(** The element [setup] leaves behind: a new element with the source, the
    player's volume and mute flag, paused at position 0, nothing loaded. *)
Definition fresh_element (audioUrl : string) (s : State) : HTMLMediaElement :=
  mkMedia audioUrl "anonymous" "none" (art_volume s) (art_muted s)
          true 0%float nan.


(** The position write of [sync], as a trace: present exactly when the
    duration of the element is a number. *)
Definition align_ops (s : State) (a : nat) : list DomOp :=
  if isNaN (duration (element a s)) then []
  else [OpSetTime a (currentTime (video s))].

(** The condition under which the volume-change listener requests
    playback: [!video.paused && !art.muted && audioElement.paused]. *)
Definition wants_resume (s : State) (a : nat) : bool :=
  negb (paused (video s)) && negb (art_muted s) && paused (element a s).

(** States the component can be in after mounting with audio tracks. *)
Definition reachable (s : State) : Prop :=
  ∃ ops log first rest v allowed,
    s = run ops (mounted log first rest v allowed).


(** What may happen inside the guard window without the component
    reacting: the player resets the volume or mute flag of its video element
    and the element reports it. *)
Definition window_op (o : Op) : Prop :=
  match o with
  | Fire EvVolumechange | VideoChanged _ => True
  | _ => False
  end.

(** The properties with the [qualities] property left out. *)
Definition without_qualities (p : Props) : Props :=
  mkProps (props_url p) None (props_audioTracks p) (props_poster p)
          (props_title p).

(** ** A sample configuration *)

Definition track_a : AudioTrack := mkTrack (Some true) "A" "a.mp3".
Definition track_b : AudioTrack := mkTrack None "B" "b.mp3".

Definition video0 : HTMLMediaElement :=
  mkMedia "v.mp4" "anonymous" "" 1%float false true 0%float 120%float.

Definition demo : State := mounted [] track_a [track_b] video0 true.

(** The video element playing at position [t]. *)
Definition playing_at (t : float) (v : HTMLMediaElement) : HTMLMediaElement :=
  with_currentTime t (with_paused false v).

(** A parser that knows the empty list and nothing else. *)
Definition parse_empty_list (s : string) : Outcome JSON :=
  if bool_decide (s = "[]") then Normal (JArray []) else Throw "SyntaxError".

(** A parser that knows three texts: [JSON.parse] returns these values for
    them; every other text is rejected here. *)
Definition parse_sample (s : string) : Outcome JSON :=
  if bool_decide (s = "[]") then Normal (JArray [])
  else if bool_decide (s = "[null]") then Normal (JArray [JNull])
  else if bool_decide (s = "5") then Normal (JNumber 5%float)
  else Throw "SyntaxError".

(** A property the code after parsing can use: absent, a list, or a string
    that is empty, is rejected by [JSON.parse], or parses to a value that
    neither makes that code throw nor leaves the declared type. *)
Definition usable {A} (decode : JSON → option A)
    (JSON_parse : string → Outcome JSON) (p : option (PropValue A)) : Prop :=
  match p with
  | Some (PString s) =>
      s = ""
      ∨ (∃ e, JSON_parse s = Throw e)
      ∨ (∃ j arr, JSON_parse s = Normal j
                  ∧ select_variants decode j = Normal arr)
  | _ => True
  end.

(** The tail of [onMounted], from the variant lists on. *)
Definition assemble (props : Props) (env : Env) (console : list string)
    (qualities : option (list Quality))
    (audioTracks : option (list AudioTrack)) : Mounted :=
  let playerOptions :=
    mkOptions (or_string (props_poster props) "")
              (or_string (props_title props) "")
              1%float false false
              (if bool_decide (brandProperty env = "") then "#3451b2"
               else brandProperty env)
              (language env)
              (fst (source_options qualities (props_url props)))
              (snd (source_options qualities (props_url props))) in
  match audioTracks with
  | Some (t :: ts) =>
      let s := mounted console t ts (playerVideo env) (autoplayAllowed env) in
      mkMounted console playerOptions (Some s)
        (if bool_decide (1 < length (t :: ts))
         then Some (html (currentAudioTrack s),
                    map (λ track, mkItem (html track) (url track)
                                    (default false (track_default track)))
                        (t :: ts))
         else None)
  | _ => mkMounted console playerOptions None None
  end.


(** * Definitions for the further properties *)

(** [x] is what [list.find(y => y.default) || list[0]] picks from [l]: the
    first element flagged as default, or the head when none is flagged. *)
Definition first_default {A} (is_default : A → option bool) (l : list A)
    (x : A) : Prop :=
  (∃ l1 l2, l = l1 ++ x :: l2 ∧ is_default x = Some true
            ∧ Forall (λ y, is_default y ≠ Some true) l1)
  ∨ (Forall (λ y, is_default y ≠ Some true) l ∧ head l = Some x).

(** The properties with another value for [qualities] or [audioTracks]. *)
Definition with_qualities (q : option (PropValue Quality)) (p : Props)
    : Props :=
  mkProps (props_url p) q (props_audioTracks p) (props_poster p)
          (props_title p).

Definition with_audioTracks (t : option (PropValue AudioTrack)) (p : Props)
    : Props :=
  mkProps (props_url p) (props_qualities p) t (props_poster p)
          (props_title p).

(** A quality without its [audioUrl]. *)
Definition drop_audioUrl (q : Quality) : Quality :=
  mkQuality (quality_default q) (quality_html q) (quality_url q) None.

(** The number of teardowns in a run. *)
Fixpoint teardowns (ops : list Op) : nat :=
  match ops with
  | [] => 0
  | (Destroy _ | Unmount) :: ops => S (teardowns ops)
  | _ :: ops => teardowns ops
  end.

(** [calm s s'] : from [s] to [s'] nothing was played.  The video element,
    the current element and the guard are the same, the trace grew without
    a play request, and every element that was paused still is. *)
Record calm (s s' : State) : Prop := mkCalm {
  calm_video : video s' = video s;
  calm_audio : audioElement s' = audioElement s;
  calm_init : isInitializing s' = isInitializing s;
  calm_trace : ∃ d, trace s' = trace s ++ d ∧ Forall (λ op, ∀ a, op ≠ OpPlay a) d;
  calm_paused : ∀ i, paused (element i s) = true →
                     paused (element i s') = true;
}.

(** The selection and the source agree: the current track is one of the
    configured ones and the current element, if any, plays its URL. *)
Record linked (s : State) : Prop := mkLinked {
  linked_track : currentAudioTrack s ∈ audioTracksArray s;
  linked_src : ∀ a, audioElement s = Some a →
                    src (element a s) = url (currentAudioTrack s);
}.
(** * Basic facts *)

Section Replay.

Lemma replay_app b t d : replay b (t ++ d) = replay (replay b t) d.
Proof. apply fold_left_app. Qed.

Lemma peak_app b t d :
  peak b (t ++ d) = peak b t `max` peak (replay b t) d.
Proof.
  revert b. induction t as [|op t IH]; intros b; simpl.
  - destruct d; simpl; lia.
  - rewrite IH. unfold replay. simpl. lia.
Qed.

Lemma peak_ge_final b t : length (replay b t) ≤ peak b t.
Proof.
  revert b. induction t as [|op t IH]; intros b; simpl; [lia|].
  specialize (IH (apply_dom b op)). unfold replay in *. simpl. lia.
Qed.


Lemma replay_quiet b d : Forall quiet_op d → replay b d = b.
Proof.
  induction 1 as [|op d Hop _ IH]; [done|].
  unfold replay in *. simpl. destruct op; simpl in *; done.
Qed.

Lemma peak_quiet b d : Forall quiet_op d → peak b d = length b.
Proof.
  induction 1 as [|op d Hop _ IH]; [done|].
  simpl. destruct op; simpl in *; try done; lia.
Qed.

Lemma filter_ne_singleton (a : nat) : filter (λ c, c ≠ a) [a] = [].
Proof. rewrite filter_cons_False; [|naive_solver]. done. Qed.

End Replay.

Section Elements.

Implicit Types (s : State) (a b : nat) (f : HTMLMediaElement → HTMLMediaElement).

Lemma element_update_eq a f s :
  a < length (elements s) →
  element a (update_element a f s) = f (element a s).
Proof.
  intros Hlt. unfold element, update_element. simpl.
  rewrite list_lookup_alter_eq.
  destruct (lookup_lt_is_Some_2 _ _ Hlt) as [e ->]. done.
Qed.

Lemma element_update_ne a b f s :
  a ≠ b → element b (update_element a f s) = element b s.
Proof.
  intros Hne. unfold element, update_element. simpl.
  by rewrite list_lookup_alter_ne.
Qed.

Lemma length_update a f s :
  length (elements (update_element a f s)) = length (elements s).
Proof. unfold update_element. simpl. apply length_alter. Qed.

(** Whatever [f] does, if it keeps [paused] the flag of every element is
    kept. *)
Lemma paused_update a b f s :
  (∀ e, paused (f e) = paused e) →
  paused (element b (update_element a f s)) = paused (element b s).
Proof.
  intros Hf. destruct (decide (a = b)) as [->|Hne].
  - unfold element, update_element. simpl. rewrite list_lookup_alter_eq.
    destruct (elements s !! b); simpl; [apply Hf|done].
  - by rewrite element_update_ne.
Qed.

Lemma duration_update a b f s :
  (∀ e, duration (f e) = duration e) →
  duration (element b (update_element a f s)) = duration (element b s).
Proof.
  intros Hf. destruct (decide (a = b)) as [->|Hne].
  - unfold element, update_element. simpl. rewrite list_lookup_alter_eq.
    destruct (elements s !! b); simpl; [apply Hf|done].
  - by rewrite element_update_ne.
Qed.

End Elements.

Section Quiet.

Implicit Types (s : State) (a : nat).

Lemma quiet_refl s : quiet s s.
Proof.
  split; try done. exists []. by rewrite app_nil_r.
Qed.

Lemma quiet_trans s1 s2 s3 : quiet s1 s2 → quiet s2 s3 → quiet s1 s3.
Proof.
  intros H1 H2. destruct H1, H2. split; try congruence.
  - destruct q_trace0 as (d1 & E1 & F1), q_trace1 as (d2 & E2 & F2).
    exists (d1 ++ d2). split.
    + by rewrite E2, E1, app_assoc.
    + by apply Forall_app.
  - intros i Hi. rewrite q_paused1, q_paused0; [done..|congruence].
Qed.

(** A write to one element that emits one quiet operation. *)
Lemma quiet_write a f op s :
  quiet_op op →
  (∀ e, duration (f e) = duration e) →
  (audioElement s = Some a ∨ ∀ e, paused (f e) = paused e) →
  quiet s (emit op (update_element a f s)).
Proof.
  intros Hop Hd Hp. split; simpl; try done.
  - apply length_alter.
  - exists [op]. split; [done|]. by constructor.
  - intros i Hi.
    change (paused (element i (update_element a f s)) = paused (element i s)).
    destruct Hp as [Ha|Hp].
    + rewrite element_update_ne; [done|congruence].
    + by apply paused_update.
  - intros i.
    change (duration (element i (update_element a f s)) = duration (element i s)).
    by apply duration_update.
Qed.

Lemma quiet_pause a s : audioElement s = Some a → quiet s (el_pause a s).
Proof. intros Ha. apply quiet_write; [done|done|by left]. Qed.

Lemma quiet_set_volume a v s : quiet s (el_set_volume a v s).
Proof. apply quiet_write; [done|done|by right]. Qed.

Lemma quiet_set_muted a m s : quiet s (el_set_muted a m s).
Proof. apply quiet_write; [done|done|by right]. Qed.

Lemma quiet_set_currentTime a t s : quiet s (el_set_currentTime a t s).
Proof. apply quiet_write; [done|done|by right]. Qed.

Lemma quiet_play a s : audioElement s = Some a → quiet s (el_play a s).
Proof.
  intros Ha. unfold el_play. simpl. destruct (playAllowed s).
  - apply (quiet_write a (with_paused false) (OpPlay a) s); [done|done|by left].
  - split; simpl; try done. exists [OpPlay a]. split; [done|]. by constructor.
Qed.

Lemma quiet_sync s : quiet s (sync s).
Proof.
  unfold sync. destruct (audioElement s); [|apply quiet_refl].
  destruct (negb _); [apply quiet_set_currentTime|apply quiet_refl].
Qed.

Lemma quiet_on_play s : quiet s (on_play s).
Proof.
  unfold on_play. pose proof (quiet_sync s) as Hs.
  destruct (audioElement (sync s)) as [a|] eqn:Ha; [|done].
  eapply quiet_trans; [exact Hs|]. by apply quiet_play.
Qed.

Lemma quiet_on_pause s : quiet s (on_pause s).
Proof.
  unfold on_pause. destruct (audioElement s) eqn:Ha; [|apply quiet_refl].
  by apply quiet_pause.
Qed.

Lemma quiet_on_volumechange s : quiet s (on_volumechange s).
Proof.
  unfold on_volumechange. destruct (isInitializing s); [apply quiet_refl|].
  destruct (audioElement s) as [a|] eqn:Ha; [|apply quiet_refl].
  assert (quiet s (el_set_muted a (art_muted (el_set_volume a (art_volume s) s))
                     (el_set_volume a (art_volume s) s))) as Hq.
  { eapply quiet_trans; [apply quiet_set_volume|apply quiet_set_muted]. }
  simpl. destruct (_ && _); [|exact Hq].
  eapply quiet_trans; [exact Hq|]. by apply quiet_play.
Qed.

Lemma quiet_listener ev s : quiet s (listener ev s).
Proof.
  destruct ev; simpl.
  - apply quiet_on_play.
  - apply quiet_on_pause.
  - apply quiet_sync.
  - apply quiet_on_volumechange.
Qed.

Lemma quiet_run_listeners ev ls s : quiet s (run_listeners ev ls s).
Proof.
  revert s. induction ls as [|l ls IH]; intros s; [apply quiet_refl|].
  unfold run_listeners in *. simpl. case_decide.
  - eapply quiet_trans; [apply quiet_listener|apply IH].
  - apply IH.
Qed.

Lemma quiet_dispatchEvent ev s : quiet s (dispatchEvent ev s).
Proof. apply quiet_run_listeners. Qed.

End Quiet.

Section CreateAudioElement.

Implicit Types (s m : State) (u : string).

Lemma createAudioElement_setup u s :
  createAudioElement u s =
    let m := setup u s in
    if negb (paused (video m))
    then el_play (length (elements s)) (sync m) else m.
Proof.
  unfold createAudioElement, setup, build, teardown_current.
  destruct (audioElement s); [|reflexivity].
  unfold createElement.
  change (elements (el_remove ?o (el_pause ?o s)))
    with (alter (with_paused true) o (elements s)).
  rewrite length_alter. reflexivity.
Qed.

(** What tearing down the current element changes. *)
Lemma teardown_elements s :
  elements (teardown_current s) =
    match audioElement s with
    | Some old => alter (with_paused true) old (elements s)
    | None => elements s
    end.
Proof. unfold teardown_current. by destruct (audioElement s). Qed.

Lemma teardown_length s :
  length (elements (teardown_current s)) = length (elements s).
Proof.
  rewrite teardown_elements. destruct (audioElement s); [|done].
  apply length_alter.
Qed.

Lemma teardown_body s :
  body (teardown_current s) =
    match audioElement s with
    | Some old => filter (λ b, b ≠ old) (body s)
    | None => body s
    end.
Proof. unfold teardown_current. by destruct (audioElement s). Qed.

Lemma teardown_trace s :
  trace (teardown_current s) =
    trace s ++ match audioElement s with
               | Some old => [OpPause old; OpRemove old]
               | None => []
               end.
Proof.
  unfold teardown_current. destruct (audioElement s); simpl.
  - by rewrite <- app_assoc.
  - by rewrite app_nil_r.
Qed.

Lemma teardown_video s : video (teardown_current s) = video s.
Proof. unfold teardown_current. by destruct (audioElement s). Qed.

Lemma teardown_listeners s : listeners (teardown_current s) = listeners s.
Proof. unfold teardown_current. by destruct (audioElement s). Qed.

Lemma teardown_playAllowed s :
  playAllowed (teardown_current s) = playAllowed s.
Proof. unfold teardown_current. by destruct (audioElement s). Qed.

(** What creating and dressing the new element changes. *)
Lemma build_elements u m :
  elements (build u m) =
    alter (with_muted (art_muted m)) (length (elements m))
      (alter (with_volume (art_volume m)) (length (elements m))
        (alter (with_display "none") (length (elements m))
          (alter (with_crossOrigin "anonymous") (length (elements m))
            (alter (with_src u) (length (elements m))
              (elements m ++ [new_audio]))))).
Proof. reflexivity. Qed.

Lemma build_audioElement u m :
  audioElement (build u m) = Some (length (elements m)).
Proof. reflexivity. Qed.

Lemma build_video u m : video (build u m) = video m.
Proof. reflexivity. Qed.

Lemma build_playAllowed u m : playAllowed (build u m) = playAllowed m.
Proof. reflexivity. Qed.

Lemma build_listeners u m : listeners (build u m) = listeners m ++ four.
Proof. unfold build. simpl. by rewrite <- !app_assoc. Qed.

Lemma build_body u m :
  body (build u m) =
    filter (λ b, b ≠ length (elements m)) (body m) ++ [length (elements m)].
Proof. reflexivity. Qed.

Lemma build_trace u m :
  trace (build u m) =
    trace m ++
    [OpCreate (length (elements m)); OpSetSrc (length (elements m)) u;
     OpAppend (length (elements m));
     OpListen EvPlay; OpListen EvPause; OpListen EvSeeked;
     OpListen EvVolumechange;
     OpSetVolume (length (elements m)) (art_volume m);
     OpSetMuted (length (elements m)) (art_muted m)].
Proof. unfold build. simpl. by rewrite <- !app_assoc. Qed.

Lemma setup_audioElement u s :
  audioElement (setup u s) = Some (length (elements s)).
Proof. unfold setup. by rewrite build_audioElement, teardown_length. Qed.

Lemma setup_video u s : video (setup u s) = video s.
Proof. unfold setup. by rewrite build_video, teardown_video. Qed.

Lemma setup_playAllowed u s : playAllowed (setup u s) = playAllowed s.
Proof. unfold setup. by rewrite build_playAllowed, teardown_playAllowed. Qed.

Lemma setup_isInitializing u s :
  isInitializing (setup u s) = isInitializing s.
Proof. unfold setup, teardown_current. by destruct (audioElement s). Qed.

Lemma setup_timers u s : timers (setup u s) = timers s.
Proof. unfold setup, teardown_current. by destruct (audioElement s). Qed.

Lemma setup_trace u s : trace (setup u s) = trace s ++ setup_ops u s.
Proof.
  unfold setup, setup_ops.
  rewrite build_trace, teardown_trace, teardown_length.
  unfold art_volume, art_muted. rewrite teardown_video.
  by rewrite <- app_assoc.
Qed.

Lemma setup_listeners u s : listeners (setup u s) = listeners s ++ four.
Proof. unfold setup. by rewrite build_listeners, teardown_listeners. Qed.

Lemma setup_length u s :
  length (elements (setup u s)) = S (length (elements s)).
Proof.
  unfold setup. rewrite build_elements, !length_alter, length_app.
  rewrite teardown_length. simpl. lia.
Qed.

Lemma setup_body u s :
  body s = option_list (audioElement s) →
  body (setup u s) = [length (elements s)].
Proof.
  intros Hb. unfold setup.
  rewrite build_body, teardown_body, teardown_length, Hb.
  destruct (audioElement s) as [old|]; simpl; [|done].
  by rewrite filter_ne_singleton.
Qed.

Lemma setup_new_element u s :
  element (length (elements s)) (setup u s) = fresh_element u s.
Proof.
  unfold element, setup. rewrite build_elements, teardown_length.
  rewrite !list_lookup_alter_eq.
  rewrite lookup_app_r by (rewrite teardown_length; lia).
  rewrite teardown_length, Nat.sub_diag. simpl.
  unfold fresh_element, art_volume, art_muted. by rewrite teardown_video.
Qed.

Lemma setup_old_element u s i :
  i < length (elements s) →
  element i (setup u s) =
    if bool_decide (audioElement s = Some i)
    then with_paused true (element i s) else element i s.
Proof.
  intros Hi. unfold element, setup. rewrite build_elements, teardown_length.
  rewrite !list_lookup_alter_ne by lia.
  rewrite lookup_app_l by (rewrite teardown_length; lia).
  rewrite teardown_elements.
  destruct (audioElement s) as [old|] eqn:Ha.
  - case_bool_decide as Hd.
    + injection Hd as ->. rewrite list_lookup_alter_eq.
      destruct (lookup_lt_is_Some_2 _ _ Hi) as [e ->]. done.
    + rewrite list_lookup_alter_ne by congruence. done.
  - by rewrite bool_decide_eq_false_2.
Qed.

End CreateAudioElement.

Section Invariant.

Implicit Types (s : State) (u : string).

Lemma listeners_after_S n : listeners_after (S n) = listeners_after n ++ four.
Proof.
  unfold listeners_after. by rewrite replicate_S_end, concat_app.
Qed.

Lemma wf_quiet s s' : quiet s s' → wf s → wf s'.
Proof.
  intros Hq Hw. destruct Hq, Hw.
  destruct q_trace0 as (d & Ed & Fd).
  split.
  - congruence.
  - intros a Ha. rewrite q_len0. apply wf_elem0. congruence.
  - congruence.
  - unfold attached_after in *. rewrite Ed, replay_app, wf_replay0.
    rewrite (replay_quiet _ _ Fd). congruence.
  - rewrite Ed, peak_app. unfold attached_after in *.
    rewrite wf_replay0, (peak_quiet _ _ Fd).
    pose proof (peak_ge_final [] (trace s)) as Hf.
    unfold replay in Hf. fold (replay [] (trace s)) in Hf.
    rewrite wf_replay0 in Hf. lia.
  - intros i Hi. rewrite q_paused0; [|congruence].
    apply wf_paused0. congruence.
Qed.

Lemma peak_setup_ops u s :
  body s = option_list (audioElement s) →
  peak (body s) (setup_ops u s) ≤ 1.
Proof.
  intros ->. unfold setup_ops.
  destruct (audioElement s) as [old|]; simpl;
    rewrite ?filter_ne_singleton; simpl; lia.
Qed.

Lemma replay_setup_ops u s :
  body s = option_list (audioElement s) →
  replay (body s) (setup_ops u s) = [length (elements s)].
Proof.
  intros ->. unfold setup_ops, replay.
  destruct (audioElement s) as [old|]; simpl;
    rewrite ?filter_ne_singleton; done.
Qed.

Lemma wf_setup u s : wf s → wf (setup u s).
Proof.
  intros Hw. pose proof Hw as [Hb He Hl Hr Hp Hq]. split.
  - by rewrite setup_body, setup_audioElement.
  - intros a. rewrite setup_audioElement, setup_length. intros [= <-]. lia.
  - by rewrite setup_listeners, setup_length, listeners_after_S, Hl.
  - unfold attached_after in *.
    by rewrite setup_trace, replay_app, Hr, replay_setup_ops, setup_body.
  - unfold attached_after in *.
    rewrite setup_trace, peak_app, Hr.
    pose proof (peak_setup_ops u s Hb). lia.
  - intros i. rewrite setup_audioElement. intros Hi.
    destruct (decide (i < length (elements s))) as [Hlt|Hge].
    + rewrite setup_old_element by done. case_bool_decide as Hd; [done|].
      by apply Hq.
    + unfold element. rewrite lookup_ge_None_2; [done|].
      rewrite setup_length.
      assert (i ≠ length (elements s)) by congruence. lia.
Qed.

Lemma quiet_createAudioElement_tail u s :
  quiet (setup u s) (createAudioElement u s).
Proof.
  rewrite createAudioElement_setup. simpl.
  destruct (negb _); [|apply quiet_refl].
  eapply quiet_trans; [apply quiet_sync|].
  apply quiet_play.
  rewrite (q_audio _ _ (quiet_sync (setup u s))).
  apply setup_audioElement.
Qed.

Lemma wf_createAudioElement u s : wf s → wf (createAudioElement u s).
Proof.
  intros Hw. eapply wf_quiet; [apply quiet_createAudioElement_tail|].
  by apply wf_setup.
Qed.

(** Changes that leave elements, document, listeners and trace alone. *)
Lemma wf_frame s s' :
  audioElement s' = audioElement s →
  elements s' = elements s →
  body s' = body s →
  listeners s' = listeners s →
  trace s' = trace s →
  wf s → wf s'.
Proof.
  intros Ha Ee Eb El Et [Hb He Hl Hr Hp Hq]. split.
  - congruence.
  - intros a. rewrite Ha, Ee. apply He.
  - congruence.
  - congruence.
  - congruence.
  - intros i. unfold element. rewrite Ha, Ee. apply Hq.
Qed.

Lemma wf_on_ready s : wf s → wf (on_ready s).
Proof.
  intros Hw. unfold on_ready. simpl.
  assert (wf (set_timers (S (timers s))
               (set_video (with_volume 0 (video s))
                  (set_isInitializing true s)))) as Hw'.
  { revert Hw. by apply wf_frame. }
  case_bool_decide; [|done]. by apply wf_createAudioElement.
Qed.

Lemma wf_destroy r s : wf s → wf (destroy r s).
Proof.
  intros Hw. pose proof Hw as [Hb He Hl Hr Hp Hq]. unfold destroy.
  destruct (audioElement s) as [a|] eqn:Ha.
  - simpl in Hb. unfold attached_after in Hr.
    split; simpl; unfold attached_after.
    + by rewrite Hb, filter_ne_singleton.
    + done.
    + by rewrite length_alter.
    + by rewrite !replay_app, Hr, Hb.
    + rewrite !peak_app, !replay_app, Hr, Hb. simpl.
      rewrite filter_ne_singleton. simpl. lia.
    + intros i _.
      change (paused (element i (update_element a (with_paused true) s)) = true).
      destruct (decide (a = i)) as [<-|Hne].
      * rewrite element_update_eq; [done|by apply He].
      * rewrite element_update_ne by done. apply Hq. congruence.
  - revert Hw. by apply wf_frame.
Qed.

Lemma wf_onSelect h v s : wf s → wf (snd (onSelect h v s)).
Proof.
  intros Hw. unfold onSelect. destruct (find _ _) as [t|]; [|done].
  simpl. apply wf_createAudioElement. revert Hw. by apply wf_frame.
Qed.

Lemma wf_update a f s :
  (∀ e, paused (f e) = true ∨ paused (f e) = paused e) →
  wf s → wf (update_element a f s).
Proof.
  intros Hf [Hb He Hl Hr Hp Hq]. split; simpl; rewrite ?length_alter; try done.
  intros i Hi. fold (element i (update_element a f s)).
  destruct (decide (a = i)) as [<-|Hne].
  - unfold element, update_element. simpl. rewrite list_lookup_alter_eq.
    specialize (Hq a Hi). unfold element in Hq.
    destruct (elements s !! a) as [e|]; simpl in *; [|done].
    destruct (Hf e); congruence.
  - rewrite element_update_ne by done. by apply Hq.
Qed.

Lemma wf_step o s : wf s → wf (step o s).
Proof.
  intros Hw. destruct o; simpl.
  - by apply wf_on_ready.
  - destruct (timers s); [done|]. revert Hw. by apply wf_frame.
  - eapply wf_quiet; [apply quiet_dispatchEvent|done].
  - case_bool_decide; [|done]. by apply wf_onSelect.
  - by apply wf_destroy.
  - by apply wf_destroy.
  - revert Hw. by apply wf_frame.
  - apply wf_update; [|done]. by right.
  - apply wf_update; [|done]. by right.
  - apply wf_update; [|done]. by left.
  - revert Hw. by apply wf_frame.
Qed.

Lemma wf_run ops s : wf s → wf (run ops s).
Proof.
  revert s. induction ops as [|o ops IH]; intros s Hw; [done|].
  apply IH. by apply wf_step.
Qed.

Lemma wf_mounted log first rest v allowed :
  wf (mounted log first rest v allowed).
Proof.
  split; simpl; try done; lia.
Qed.

Lemma wf_reachable ops log first rest v allowed :
  wf (run ops (mounted log first rest v allowed)).
Proof. apply wf_run, wf_mounted. Qed.

End Invariant.

Section Dispatch.

Implicit Types (s : State) (a : nat) (ev : VideoEvent).

Lemma reachable_wf s : reachable s → wf s.
Proof. intros (ops & log & first & rest & v & allowed & ->). apply wf_reachable. Qed.

Lemma run_listeners_four ev s : run_listeners ev four s = listener ev s.
Proof. by destruct ev. Qed.

(** With [n] elements created so far, an event runs its listener [n]
    times. *)
Lemma run_listeners_after ev n s :
  run_listeners ev (listeners_after n) s = Nat.iter n (listener ev) s.
Proof.
  revert s. induction n as [|n IH]; intros s; [done|].
  rewrite Nat.iter_succ_r, <- IH, <- run_listeners_four.
  reflexivity.
Qed.

Lemma dispatchEvent_iter ev s :
  wf s → dispatchEvent ev s = Nat.iter (length (elements s)) (listener ev) s.
Proof.
  intros Hw. unfold dispatchEvent.
  by rewrite (wf_listeners _ Hw), run_listeners_after.
Qed.

Lemma quiet_iter ev n s : quiet s (Nat.iter n (listener ev) s).
Proof.
  induction n as [|n IH]; [apply quiet_refl|]. simpl.
  eapply quiet_trans; [exact IH|apply quiet_listener].
Qed.

Lemma sync_valid s a :
  audioElement s = Some a → a < length (elements s) →
  isNaN (duration (element a s)) = false →
  sync s = el_set_currentTime a (currentTime (video s)) s.
Proof. intros Ha Hlt Hd. unfold sync. by rewrite Ha, Hd. Qed.

Lemma sync_invalid s a :
  audioElement s = Some a → isNaN (duration (element a s)) = true →
  sync s = s.
Proof. intros Ha Hd. unfold sync. by rewrite Ha, Hd. Qed.

Lemma element_set_currentTime a t s :
  a < length (elements s) →
  element a (el_set_currentTime a t s) = with_currentTime t (element a s).
Proof. intros Hlt. by apply (element_update_eq a (with_currentTime t) s). Qed.

End Dispatch.

Section Handlers.

Implicit Types (s : State) (a : nat).

Lemma el_play_trace a s : trace (el_play a s) = trace s ++ [OpPlay a].
Proof. unfold el_play. simpl. by destruct (playAllowed s). Qed.

Lemma el_play_element a s :
  a < length (elements s) →
  element a (el_play a s) =
    if playAllowed s then with_paused false (element a s) else element a s.
Proof.
  intros Hlt. unfold el_play. simpl. destruct (playAllowed s); [|done].
  by apply (element_update_eq a (with_paused false) (emit (OpPlay a) s)).
Qed.

Lemma el_play_console a s :
  console (el_play a s) =
    if playAllowed s then console s else console s ++ ["Audio play error:"].
Proof. unfold el_play. simpl. by destruct (playAllowed s). Qed.

Lemma sync_trace s a :
  audioElement s = Some a → trace (sync s) = trace s ++ align_ops s a.
Proof.
  intros Ha. unfold sync, align_ops. rewrite Ha.
  destruct (isNaN _); simpl; [by rewrite app_nil_r|done].
Qed.

Lemma sync_element s a :
  audioElement s = Some a → a < length (elements s) →
  element a (sync s) =
    if isNaN (duration (element a s)) then element a s
    else with_currentTime (currentTime (video s)) (element a s).
Proof.
  intros Ha Hlt. unfold sync. rewrite Ha.
  destruct (isNaN _); simpl; [done|]. by apply element_set_currentTime.
Qed.

Lemma on_play_unfold s a :
  audioElement s = Some a → on_play s = el_play a (sync s).
Proof.
  intros Ha. unfold on_play. by rewrite (q_audio _ _ (quiet_sync s)), Ha.
Qed.

Lemma on_play_trace s a :
  audioElement s = Some a →
  trace (on_play s) = trace s ++ align_ops s a ++ [OpPlay a].
Proof.
  intros Ha. rewrite (on_play_unfold s a Ha), el_play_trace.
  by rewrite (sync_trace s a Ha), <- app_assoc.
Qed.

Lemma on_play_console s a :
  audioElement s = Some a →
  console (on_play s) =
    console s ++ if playAllowed s then [] else ["Audio play error:"].
Proof.
  intros Ha. rewrite (on_play_unfold s a Ha), el_play_console.
  rewrite (q_allowed _ _ (quiet_sync s)).
  assert (console (sync s) = console s) as ->.
  { unfold sync. rewrite Ha. by destruct (negb _). }
  destruct (playAllowed s); [by rewrite app_nil_r|done].
Qed.

Lemma on_play_element s a :
  audioElement s = Some a → a < length (elements s) →
  element a (on_play s) =
    (if playAllowed s then with_paused false else id)
      (if isNaN (duration (element a s)) then element a s
       else with_currentTime (currentTime (video s)) (element a s)).
Proof.
  intros Ha Hlt. rewrite (on_play_unfold s a Ha).
  rewrite el_play_element by (by rewrite (q_len _ _ (quiet_sync s))).
  rewrite (q_allowed _ _ (quiet_sync s)), (sync_element s a Ha Hlt).
  by destruct (playAllowed s).
Qed.

Lemma element_set_volume a v s :
  a < length (elements s) →
  element a (el_set_volume a v s) = with_volume v (element a s).
Proof. intros Hlt. by apply (element_update_eq a (with_volume v) s). Qed.

Lemma element_set_muted a m s :
  a < length (elements s) →
  element a (el_set_muted a m s) = with_muted m (element a s).
Proof. intros Hlt. by apply (element_update_eq a (with_muted m) s). Qed.

Lemma length_set_volume a v s :
  length (elements (el_set_volume a v s)) = length (elements s).
Proof. apply length_update. Qed.

Lemma length_set_muted a m s :
  length (elements (el_set_muted a m s)) = length (elements s).
Proof. apply length_update. Qed.

Lemma element_mirrored s a :
  a < length (elements s) →
  element a (el_set_muted a (art_muted s) (el_set_volume a (art_volume s) s))
  = with_muted (art_muted s) (with_volume (art_volume s) (element a s)).
Proof.
  intros Hlt. rewrite element_set_muted by (by rewrite length_set_volume).
  by rewrite element_set_volume.
Qed.

Lemma on_volumechange_guarded s :
  isInitializing s = true → on_volumechange s = s.
Proof. intros Hi. unfold on_volumechange. by rewrite Hi. Qed.

Lemma on_volumechange_unfold s a :
  isInitializing s = false → audioElement s = Some a →
  a < length (elements s) →
  on_volumechange s =
    let m := el_set_muted a (art_muted s) (el_set_volume a (art_volume s) s) in
    if wants_resume s a then el_play a m else m.
Proof.
  intros Hi Ha Hlt. unfold on_volumechange. rewrite Hi, Ha. cbv zeta.
  unfold wants_resume.
  change (art_muted (el_set_volume a (art_volume s) s)) with (art_muted s).
  set (m := el_set_muted a _ _).
  assert (paused (element a m) = paused (element a s)) as ->.
  { unfold m. by rewrite element_mirrored. }
  reflexivity.
Qed.

Lemma on_volumechange_element s a :
  isInitializing s = false → audioElement s = Some a →
  a < length (elements s) →
  element a (on_volumechange s) =
    (if wants_resume s a && playAllowed s then with_paused false else id)
      (with_muted (art_muted s) (with_volume (art_volume s) (element a s))).
Proof.
  intros Hi Ha Hlt. rewrite (on_volumechange_unfold s a Hi Ha Hlt). cbv zeta.
  destruct (wants_resume s a); simpl; [|by apply element_mirrored].
  rewrite el_play_element
    by (by rewrite length_set_muted, length_set_volume).
  rewrite element_mirrored by done.
  change (playAllowed (el_set_muted a _ _)) with (playAllowed s).
  by destruct (playAllowed s).
Qed.

Lemma on_volumechange_trace s a :
  isInitializing s = false → audioElement s = Some a →
  a < length (elements s) →
  trace (on_volumechange s) =
    trace s ++ [OpSetVolume a (art_volume s); OpSetMuted a (art_muted s)]
      ++ if wants_resume s a then [OpPlay a] else [].
Proof.
  intros Hi Ha Hlt. rewrite (on_volumechange_unfold s a Hi Ha Hlt). cbv zeta.
  destruct (wants_resume s a).
  - rewrite el_play_trace. simpl. by rewrite <- !app_assoc.
  - simpl. by rewrite <- !app_assoc.
Qed.

End Handlers.

(** * The model at work *)

(** The primary plays, pauses, is sought to 30 s and plays again: the
    secondary is aligned to 0 and played, paused, aligned to 30, aligned to
    30 again and played. *)
Example play_pause_seek_play :
  let s := run [Ready; Timeout; AudioLoaded 0 90%float] demo in
  let s' := run [VideoChanged (playing_at 0%float video0); Fire EvPlay;
                 VideoChanged (with_paused true (video s)); Fire EvPause;
                 VideoChanged (with_currentTime 30%float (video s));
                 Fire EvSeeked;
                 VideoChanged (playing_at 30%float video0); Fire EvPlay] s in
  trace s' = trace s ++ [OpSetTime 0 0%float; OpPlay 0; OpPause 0;
                         OpSetTime 0 30%float;
                         OpSetTime 0 30%float; OpPlay 0].
Proof. by vm_compute. Qed.

(** A list that parses: the default quality provides the URL. *)
Example mount_with_qualities :
  ∃ m, onMounted parse_empty_list parse_empty_list
         (mkProps (Some "v.mp4")
            (Some (PArray [mkQuality None "720p" "v720.mp4" None;
                           mkQuality (Some true) "1080p" "v1080.mp4" None]))
            None None None)
         (mkEnv true "" "en-us" video0 true)
       = Normal (Some m)
    ∧ opt_url (playerOptions m) = Some "v1080.mp4"
    ∧ session m = None.
Proof. by eexists. Qed.

(** * The claims *)

Section Selection.

Lemma find_none_Forall {A} (f : A → bool) (l : list A) :
  Forall (λ x, f x = false) l → find f l = None.
Proof.
  induction 1 as [|x l Hx _ IH]; [done|]. simpl. by rewrite Hx.
Qed.

(** C10: a selection whose value is the URL of no configured track
    leaves the whole state as it was, elements, document and current
    track included, and returns the label of the current track. *)
Theorem onSelect_unknown_value (item_html item_value : string) (s : State) :
  Forall (λ t, url t ≠ item_value) (audioTracksArray s) →
  onSelect item_html item_value s = (html (currentAudioTrack s), s).
Proof.
  intros Hall. unfold onSelect. rewrite find_none_Forall; [done|].
  eapply Forall_impl; [exact Hall|]. intros t Ht. simpl in Ht.
  by apply bool_decide_eq_false.
Qed.

Lemma onSelect_unknown_value_witness :
  onSelect "C" "c.mp3" (run [Ready] demo) = ("A", run [Ready] demo).
Proof.
  apply (onSelect_unknown_value "C" "c.mp3" (run [Ready] demo)).
  repeat constructor; simpl; discriminate.
Defined.

End Selection.

Section Seeking.

(** C6: on a [seeked] event, when the duration of the secondary element
    is a number its position becomes the position of the primary element;
    when the duration is [NaN] nothing is written and nothing else changes
    either. *)
Theorem seeked_aligns_or_skips (s : State) (a : nat) :
  reachable s → audioElement s = Some a →
  (isNaN (duration (element a s)) = false →
   currentTime (element a (dispatchEvent EvSeeked s)) = currentTime (video s))
  ∧ (isNaN (duration (element a s)) = true → dispatchEvent EvSeeked s = s).
Proof.
  intros Hr Ha. pose proof (reachable_wf s Hr) as Hw.
  pose proof (wf_elem s Hw a Ha) as Hlt.
  rewrite (dispatchEvent_iter EvSeeked s Hw).
  destruct (length (elements s)) as [|n] eqn:Hn; [lia|]. split; intros Hd.
  - change (Nat.iter (S n) (listener EvSeeked) s)
      with (sync (Nat.iter n (listener EvSeeked) s)).
    pose proof (quiet_iter EvSeeked n s) as Hq.
    set (s1 := Nat.iter n (listener EvSeeked) s) in *.
    assert (audioElement s1 = Some a) as Ha1 by (by rewrite (q_audio _ _ Hq)).
    assert (a < length (elements s1)) as Hlt1 by (rewrite (q_len _ _ Hq); lia).
    rewrite (sync_valid s1 a Ha1 Hlt1).
    + rewrite element_set_currentTime by done. simpl.
      by rewrite (q_video _ _ Hq).
    + by rewrite (q_duration _ _ Hq).
  - clear Hn Hlt. induction n as [|n IH].
    + by apply (sync_invalid s a).
    + change (sync (Nat.iter (S n) (listener EvSeeked) s) = s).
      rewrite IH. by apply (sync_invalid s a).
Qed.

Lemma seeked_aligns_or_skips_witness :
  let s := run [Ready; AudioLoaded 0 90%float;
                VideoChanged (playing_at 30%float video0)] demo in
  currentTime (element 0 (dispatchEvent EvSeeked s)) = 30%float.
Proof.
  intros s.
  refine (proj1 (seeked_aligns_or_skips s 0 _ _) _).
  - by exists [Ready; AudioLoaded 0 90%float;
              VideoChanged (playing_at 30%float video0)],
             [], track_a, [track_b], video0, true.
  - reflexivity.
  - reflexivity.
Defined.

End Seeking.

Section Teardown.

Implicit Types (s : State) (o : Op).










End Teardown.

Section Switching.

Implicit Types (s : State) (u : string).

Lemma setup_sync u s : sync (setup u s) = setup u s.
Proof.
  apply (sync_invalid _ (length (elements s))).
  - apply setup_audioElement.
  - by rewrite setup_new_element.
Qed.

Lemma createAudioElement_play u s :
  createAudioElement u s =
    if paused (video s) then setup u s
    else el_play (length (elements s)) (setup u s).
Proof.
  rewrite createAudioElement_setup. cbv zeta.
  rewrite setup_sync, setup_video. by destruct (paused (video s)).
Qed.

Lemma createAudioElement_trace u s :
  trace (createAudioElement u s) =
    trace s ++ setup_ops u s
      ++ (if paused (video s) then [] else [OpPlay (length (elements s))]).
Proof.
  rewrite createAudioElement_play.
  destruct (paused (video s)).
  - by rewrite setup_trace, app_nil_r.
  - by rewrite el_play_trace, setup_trace, <- app_assoc.
Qed.

Lemma createAudioElement_new_element u s :
  element (length (elements s)) (createAudioElement u s) =
    with_paused (paused (video s) || negb (playAllowed s)) (fresh_element u s).
Proof.
  rewrite createAudioElement_play.
  destruct (paused (video s)); simpl.
  - by rewrite setup_new_element.
  - rewrite el_play_element by (rewrite setup_length; lia).
    rewrite setup_playAllowed, setup_new_element.
    by destruct (playAllowed s).
Qed.

(** What a switch does while a secondary element exists: it pauses and
    removes that element, then creates a new one with the new source,
    attaches it, registers four listeners, copies the player's volume and
    mute flag and, if the primary is playing, requests playback of the new
    element once, as the last step.  The new element is the only one
    attached and its play state follows the primary's, if the request is
    allowed. *)
Theorem switch_track (u : string) (s : State) (old : nat) :
  reachable s → audioElement s = Some old →
  let s' := createAudioElement u s in
  let new := length (elements s) in
  trace s' =
    trace s ++
    [OpPause old; OpRemove old;
     OpCreate new; OpSetSrc new u; OpAppend new;
     OpListen EvPlay; OpListen EvPause; OpListen EvSeeked;
     OpListen EvVolumechange;
     OpSetVolume new (art_volume s); OpSetMuted new (art_muted s)] ++
    (if paused (video s) then [] else [OpPlay new])
  ∧ audioElement s' = Some new
  ∧ body s' = [new]
  ∧ paused (element old s') = true
  ∧ element new s' =
      mkMedia u "anonymous" "none" (art_volume s) (art_muted s)
              (paused (video s) || negb (playAllowed s)) 0%float nan.
Proof.
  intros Hr Ha s' new. pose proof (reachable_wf s Hr) as Hw.
  pose proof (quiet_createAudioElement_tail u s) as Hq.
  assert (audioElement s' = Some new) as Ha'.
  { unfold s'. rewrite (q_audio _ _ Hq). apply setup_audioElement. }
  split; [|split; [|split; [|split]]].
  - unfold s'. rewrite createAudioElement_trace. unfold setup_ops.
    by rewrite Ha.
  - done.
  - unfold s'. rewrite (q_body _ _ Hq). apply setup_body, Hw.
  - apply (wf_paused s'); [by apply wf_createAudioElement|].
    rewrite Ha'. pose proof (wf_elem s Hw old Ha). intros [= ?].
    unfold new in *. lia.
  - unfold s', new. by rewrite createAudioElement_new_element.
Qed.

Lemma switch_track_witness :
  let s := run [Ready; AudioLoaded 0 90%float;
                VideoChanged (playing_at 30%float video0); Fire EvPlay] demo in
  audioElement (createAudioElement "b.mp3" s) = Some 1.
Proof.
  intros s.
  refine (proj1 (proj2 (switch_track "b.mp3" s 0 _ _))).
  - by exists [Ready; AudioLoaded 0 90%float;
              VideoChanged (playing_at 30%float video0); Fire EvPlay],
             [], track_a, [track_b], video0, true.
  - reflexivity.
Defined.

(** C1: the switch does not keep the playback position.
    [createAudioElement] calls [sync()] right before [play()] on the element
    it has just created, whose duration is still [NaN], so the guard of
    [sync] skips the write: with the primary playing at 30 s and the old
    secondary element aligned with it, the new element plays from 0. *)
Lemma switch_track_loses_position :
  let s := run [Ready; AudioLoaded 0 90%float;
                VideoChanged (playing_at 30%float video0); Fire EvPlay] demo in
  let s' := snd (onSelect "B" "b.mp3" s) in
  audioElement s = Some 0
  ∧ paused (video s) = false
  ∧ currentTime (element 0 s) = currentTime (video s)
  ∧ audioElement s' = Some 1
  ∧ paused (element 1 s') = false
  ∧ currentTime (video s') = 30%float
  ∧ currentTime (element 1 s') = 0%float
  ∧ currentTime (element 1 s') ≠ currentTime (video s').
Proof.
  vm_compute. repeat split.
  intros H. apply (f_equal (λ x, PrimFloat.eqb x 0%float)) in H.
  vm_compute in H. discriminate.
Qed.

End Switching.

Section Listeners.

Implicit Types (s : State) (u : string).

Lemma createAudioElement_listeners u s :
  listeners (createAudioElement u s) = listeners s ++ four.
Proof.
  rewrite (q_listeners _ _ (quiet_createAudioElement_tail u s)).
  apply setup_listeners.
Qed.

Lemma destroy_listeners r s : listeners (destroy r s) = listeners s.
Proof. unfold destroy. by destruct (audioElement s). Qed.

Lemma step_listeners o s :
  listeners (step o s) = listeners s ∨ listeners (step o s) = listeners s ++ four.
Proof.
  destruct o as [| |ev|h v|r| |v|a d|a t|a|b];
    [| | | | | |left; reflexivity..].
  - simpl. unfold on_ready. simpl. case_bool_decide; [right|by left].
    by rewrite createAudioElement_listeners.
  - simpl. destruct (timers s); by left.
  - left. apply (q_listeners _ _ (quiet_dispatchEvent ev s)).
  - simpl. case_bool_decide; [|by left]. unfold onSelect.
    destruct (find _ _); [right|by left]. simpl.
    by rewrite createAudioElement_listeners.
  - left. apply destroy_listeners.
  - left. apply (destroy_listeners (Some false)).
Qed.

(** C3, as the code has it: the listeners on the primary element are never
    unregistered.  Every creation of a secondary element appends four more
    (play, pause, seeked, volumechange), no step of the component removes
    one, so with [n] elements created there are [n] listeners per event; an
    event runs its handler [n] times, each time on the element that is
    current then. *)
Theorem listeners_accumulate (s : State) :
  reachable s →
  listeners s = listeners_after (length (elements s))
  ∧ (∀ u, listeners (createAudioElement u s) = listeners s ++ four)
  ∧ (∀ o, listeners s `prefix_of` listeners (step o s))
  ∧ (∀ ev, dispatchEvent ev s
           = Nat.iter (length (elements s)) (listener ev) s).
Proof.
  intros Hr. pose proof (reachable_wf s Hr) as Hw.
  split; [|split; [|split]].
  - apply (wf_listeners s Hw).
  - intros u. apply createAudioElement_listeners.
  - intros o. destruct (step_listeners o s) as [->| ->].
    + done.
    + by apply prefix_app_r.
  - intros ev. by apply dispatchEvent_iter.
Qed.

Lemma listeners_accumulate_witness :
  listeners (run [Ready; Select "B" "b.mp3"; Select "A" "a.mp3"] demo)
  = listeners_after 3.
Proof.
  refine (proj1 (listeners_accumulate
                   (run [Ready; Select "B" "b.mp3"; Select "A" "a.mp3"] demo)
                   _)).
  by exists [Ready; Select "B" "b.mp3"; Select "A" "a.mp3"],
            [], track_a, [track_b], video0, true.
Defined.

(** C3 as stated fails: after one switch the primary element carries two
    listeners for every event, and one play event requests playback of the
    secondary element twice. *)
Lemma switch_duplicates_listeners :
  let s := run [Ready; Select "B" "b.mp3"] demo in
  listeners s = [EvPlay; EvPause; EvSeeked; EvVolumechange;
                 EvPlay; EvPause; EvSeeked; EvVolumechange]
  ∧ ¬ NoDup (listeners s)
  ∧ trace (dispatchEvent EvPlay s) = trace s ++ [OpPlay 1; OpPlay 1].
Proof.
  split; [by vm_compute|]. split; [|by vm_compute].
  vm_compute listeners. intros Hnd. apply NoDup_cons_1_1 in Hnd. apply Hnd.
  repeat constructor.
Qed.

End Listeners.

Section Playing.

Implicit Types (s : State) (a : nat).

Lemma concat_replicate_S {A} (n : nat) (l : list A) :
  concat (replicate (S n) l) = concat (replicate n l) ++ l.
Proof. by rewrite replicate_S_end, concat_app; simpl; rewrite app_nil_r. Qed.

Lemma iter_on_play n s a :
  audioElement s = Some a → a < length (elements s) →
  let s' := Nat.iter n (listener EvPlay) s in
  trace s' = trace s ++ concat (replicate n (align_ops s a ++ [OpPlay a]))
  ∧ console s' =
      console s ++ (if playAllowed s then []
                    else replicate n "Audio play error:")
  ∧ currentTime (element a s') =
      (if isNaN (duration (element a s)) || bool_decide (n = 0)
       then currentTime (element a s) else currentTime (video s))
  ∧ paused (element a s') =
      (if playAllowed s && negb (bool_decide (n = 0)) then false
       else paused (element a s)).
Proof.
  intros Ha Hlt. induction n as [|n IH]; cbv zeta.
  - simpl. rewrite !app_nil_r, orb_true_r, andb_false_r.
    destruct (playAllowed s); by rewrite app_nil_r.
  - cbv zeta in IH. destruct IH as (Ht & Hc & Hp & Hq).
    pose proof (quiet_iter EvPlay n s) as Q.
    change (Nat.iter (S n) (listener EvPlay) s)
      with (on_play (Nat.iter n (listener EvPlay) s)).
    set (m := Nat.iter n (listener EvPlay) s) in *.
    assert (audioElement m = Some a) as Ha' by (by rewrite (q_audio _ _ Q)).
    assert (a < length (elements m)) as Hlt' by (by rewrite (q_len _ _ Q)).
    assert (align_ops m a = align_ops s a) as Hal.
    { unfold align_ops. by rewrite (q_duration _ _ Q), (q_video _ _ Q). }
    rewrite (on_play_trace m a Ha'), (on_play_console m a Ha').
    rewrite (on_play_element m a Ha' Hlt').
    rewrite Hal, Ht, Hc, (q_allowed _ _ Q), (q_duration _ _ Q), (q_video _ _ Q).
    rewrite concat_replicate_S.
    rewrite (bool_decide_eq_false_2 (S n = 0)) by lia.
    rewrite orb_false_r, andb_true_r.
    split; [by rewrite <- !app_assoc|]. split; [|split].
    + destruct (playAllowed s); [by rewrite !app_nil_r|].
      by rewrite <- app_assoc, <- replicate_S_end.
    + destruct (playAllowed s), (isNaN (duration (element a s))); simpl;
        try done; rewrite Hp; by rewrite ?orb_true_l.
    + destruct (playAllowed s), (isNaN (duration (element a s))); simpl;
        try done; rewrite Hq; by rewrite ?andb_false_l.
Qed.

(** C7, as the code has it: on a [play] event every registered play
    listener writes the primary's position to the secondary element if the
    secondary's duration is a number, and skips the write otherwise, and
    then requests playback.  A refused request is caught and logged, the
    element keeps its paused flag, nothing is retried and the rest of the
    state is as before. *)
Theorem play_event (s : State) (a : nat) :
  reachable s → audioElement s = Some a →
  let s' := dispatchEvent EvPlay s in
  let n := length (elements s) in
  trace s' = trace s ++ concat (replicate n (align_ops s a ++ [OpPlay a]))
  ∧ currentTime (element a s') =
      (if isNaN (duration (element a s)) then currentTime (element a s)
       else currentTime (video s))
  ∧ paused (element a s') =
      (if playAllowed s then false else paused (element a s))
  ∧ console s' =
      console s ++ (if playAllowed s then []
                    else replicate n "Audio play error:")
  ∧ quiet s s'.
Proof.
  intros Hr Ha s' n. pose proof (reachable_wf s Hr) as Hw.
  pose proof (wf_elem s Hw a Ha) as Hlt.
  destruct (iter_on_play n s a Ha Hlt) as (Ht & Hc & Hp & Hq).
  unfold s'. rewrite (dispatchEvent_iter EvPlay s Hw). fold n.
  rewrite (bool_decide_eq_false_2 (n = 0)) in Hp, Hq by (unfold n; lia).
  rewrite orb_false_r in Hp. rewrite andb_true_r in Hq.
  split; [done|]. split; [done|]. split; [done|]. split; [done|].
  apply quiet_iter.
Qed.

Lemma play_event_witness :
  let s := run [Ready; AudioLoaded 0 90%float;
                VideoChanged (playing_at 30%float video0); Policy false] demo in
  trace (dispatchEvent EvPlay s)
  = trace s ++ concat (replicate 1 (align_ops s 0 ++ [OpPlay 0])).
Proof.
  intros s.
  refine (proj1 (play_event s 0 _ _)).
  - by exists [Ready; AudioLoaded 0 90%float;
              VideoChanged (playing_at 30%float video0); Policy false],
             [], track_a, [track_b], video0, true.
  - reflexivity.
Defined.

(** C7 as stated fails: the secondary element has not loaded yet when the
    primary starts playing at 30 s; playback of the secondary is requested
    and starts, without any position write, at 0. *)
Lemma play_event_without_alignment :
  let s := run [Ready; VideoChanged (playing_at 30%float video0)] demo in
  let s' := dispatchEvent EvPlay s in
  audioElement s = Some 0
  ∧ trace s' = trace s ++ [OpPlay 0]
  ∧ paused (element 0 s') = false
  ∧ currentTime (video s') = 30%float
  ∧ currentTime (element 0 s') = 0%float
  ∧ currentTime (element 0 s') ≠ currentTime (video s').
Proof.
  vm_compute. repeat split.
  intros H. apply (f_equal (λ x, PrimFloat.eqb x 0%float)) in H.
  vm_compute in H. discriminate.
Qed.

End Playing.

Section Volume.

Implicit Types (s : State) (a : nat).

Lemma iter_volumechange n s a :
  isInitializing s = false → audioElement s = Some a →
  a < length (elements s) →
  let s' := Nat.iter (S n) (listener EvVolumechange) s in
  volume (element a s') = art_volume s ∧ muted (element a s') = art_muted s.
Proof.
  intros Hi Ha Hlt. cbv zeta.
  pose proof (quiet_iter EvVolumechange n s) as Q.
  change (Nat.iter (S n) (listener EvVolumechange) s)
    with (on_volumechange (Nat.iter n (listener EvVolumechange) s)).
  set (m := Nat.iter n (listener EvVolumechange) s) in *.
  rewrite (on_volumechange_element m a).
  - unfold art_volume, art_muted. rewrite (q_video _ _ Q).
    by destruct (_ && _).
  - by rewrite (q_init _ _ Q).
  - by rewrite (q_audio _ _ Q).
  - by rewrite (q_len _ _ Q).
Qed.

Lemma iter_volumechange_playing n s a :
  isInitializing s = false → audioElement s = Some a →
  a < length (elements s) → paused (element a s) = false →
  paused (element a (Nat.iter n (listener EvVolumechange) s)) = false.
Proof.
  intros Hi Ha Hlt Hp. induction n as [|n IH]; [done|].
  pose proof (quiet_iter EvVolumechange n s) as Q.
  change (Nat.iter (S n) (listener EvVolumechange) s)
    with (on_volumechange (Nat.iter n (listener EvVolumechange) s)).
  set (m := Nat.iter n (listener EvVolumechange) s) in *.
  rewrite (on_volumechange_element m a).
  - by destruct (_ && _).
  - by rewrite (q_init _ _ Q).
  - by rewrite (q_audio _ _ Q).
  - by rewrite (q_len _ _ Q).
Qed.

(** C8: outside the guard window a [volumechange] event leaves the
    secondary element with the player's volume and mute flag; and when the
    player is not muted, the primary is playing and the secondary is paused,
    playback of the secondary is requested, so that it plays if the browser
    allows it. *)
Theorem volumechange_mirrors (s : State) (a : nat) :
  reachable s → audioElement s = Some a → isInitializing s = false →
  let s' := dispatchEvent EvVolumechange s in
  volume (element a s') = art_volume s
  ∧ muted (element a s') = art_muted s
  ∧ (paused (video s) = false → art_muted s = false →
     paused (element a s) = true →
     (∃ d, trace s' =
             trace s ++ [OpSetVolume a (art_volume s);
                         OpSetMuted a (art_muted s); OpPlay a] ++ d)
     ∧ (playAllowed s = true → paused (element a s') = false)).
Proof.
  intros Hr Ha Hi s'. pose proof (reachable_wf s Hr) as Hw.
  pose proof (wf_elem s Hw a Ha) as Hlt.
  unfold s'. rewrite (dispatchEvent_iter EvVolumechange s Hw).
  assert (∃ n, length (elements s) = S n) as [n ->].
  { exists (pred (length (elements s))). lia. }
  destruct (iter_volumechange n s a Hi Ha Hlt) as [Hv Hm].
  split; [done|]. split; [done|].
  intros Hvp Hmu Hap.
  assert (wants_resume s a = true) as Hres.
  { unfold wants_resume. by rewrite Hvp, Hmu, Hap. }
  rewrite Nat.iter_succ_r.
  change (listener EvVolumechange s) with (on_volumechange s).
  pose proof (quiet_iter EvVolumechange n (on_volumechange s)) as Q.
  pose proof (quiet_on_volumechange s) as Q1.
  split.
  - destruct (q_trace _ _ Q) as (d & Hd & _). exists d.
    rewrite Hd, (on_volumechange_trace s a Hi Ha Hlt), Hres.
    by rewrite <- !app_assoc.
  - intros Hal. apply iter_volumechange_playing.
    + by rewrite (q_init _ _ Q1).
    + by rewrite (q_audio _ _ Q1).
    + by rewrite (q_len _ _ Q1).
    + rewrite (on_volumechange_element s a Hi Ha Hlt), Hres, Hal. done.
Qed.

Lemma volumechange_mirrors_witness :
  let s := run [Ready; Timeout;
                VideoChanged (with_volume 0.5%float (playing_at 8%float video0))]
               demo in
  volume (element 0 (dispatchEvent EvVolumechange s)) = 0.5%float.
Proof.
  intros s.
  refine (proj1 (volumechange_mirrors s 0 _ _ _)).
  - by exists [Ready; Timeout;
              VideoChanged (with_volume 0.5%float (playing_at 8%float video0))],
             [], track_a, [track_b], video0, true.
  - reflexivity.
  - reflexivity.
Defined.

End Volume.

Section GuardWindow.

Implicit Types (s : State).

Lemma run_listeners_guarded ls s :
  isInitializing s = true → run_listeners EvVolumechange ls s = s.
Proof.
  intros Hi. induction ls as [|l ls IH]; [done|].
  unfold run_listeners in *. simpl. case_decide; [|done].
  subst l. simpl. by rewrite (on_volumechange_guarded s Hi).
Qed.

Lemma set_video_id s : set_video (video s) s = s.
Proof. by destruct s. Qed.

(** Inside the guard window the component reacts to nothing: whatever the
    player does to its video element, only that element changes. *)
Lemma run_window noise s :
  isInitializing s = true → Forall window_op noise →
  ∃ v, run noise s = set_video v s.
Proof.
  intros Hi Hall. revert s Hi.
  induction Hall as [|o noise Ho _ IH]; intros s Hi.
  - exists (video s). by rewrite set_video_id.
  - destruct o as [| |ev|h u|r| |v|a d|a t|a|b]; try done.
    + destruct ev; try done. simpl. unfold dispatchEvent.
      rewrite run_listeners_guarded by done. by apply IH.
    + simpl. destruct (IH (set_video v s) Hi) as [v' Hv']. by exists v'.
Qed.

Lemma on_ready_mounted log first rest v allowed :
  url (default_track first rest) ≠ "" →
  let r := on_ready (mounted log first rest v allowed) in
  audioElement r = Some 0
  ∧ isInitializing r = true
  ∧ timers r = 1
  ∧ length (elements r) = 1
  ∧ volume (element 0 r) = 0%float
  ∧ muted (element 0 r) = muted v.
Proof.
  intros Hu. cbv zeta. unfold on_ready.
  change (url (currentAudioTrack _)) with (url (default_track first rest)).
  rewrite bool_decide_eq_true_2 by done.
  set (m := set_timers _ _).
  pose proof (quiet_createAudioElement_tail (url (default_track first rest)) m)
    as Q.
  split; [|split; [|split; [|split]]].
  - by rewrite (q_audio _ _ Q), setup_audioElement.
  - by rewrite (q_init _ _ Q), setup_isInitializing.
  - by rewrite (q_timers _ _ Q), setup_timers.
  - by rewrite (q_len _ _ Q), setup_length.
  - change 0 with (length (elements m)).
    by rewrite createAudioElement_new_element.
Qed.

(** C2, as the code has it: while the guard is up, volume-change events
    and volume resets of the player change nothing in the component and
    nothing on the secondary element.  When the timer fires the player is
    set to full volume and unmuted and the guard is lifted; the timer does
    not write to the secondary element, which still has the volume 0 and
    the mute flag it was created with.  The next volume-change event gives
    it full volume, unmuted. *)
Theorem guard_window (log : list string) (first : AudioTrack)
    (rest : list AudioTrack) (v : HTMLMediaElement) (allowed : bool)
    (noise : list Op) :
  url (default_track first rest) ≠ "" → Forall window_op noise →
  let s0 := mounted log first rest v allowed in
  let s1 := run (Ready :: noise) s0 in
  let s2 := step Timeout s1 in
  let s3 := step (Fire EvVolumechange) s2 in
  (elements s1 = elements (on_ready s0) ∧ trace s1 = trace (on_ready s0)
   ∧ console s1 = console (on_ready s0) ∧ isInitializing s1 = true)
  ∧ (volume (video s2) = 1%float ∧ muted (video s2) = false
     ∧ isInitializing s2 = false)
  ∧ (elements s2 = elements (on_ready s0)
     ∧ volume (element 0 s2) = 0%float ∧ muted (element 0 s2) = muted v)
  ∧ (volume (element 0 s3) = 1%float ∧ muted (element 0 s3) = false).
Proof.
  intros Hu Hall s0 s1 s2 s3.
  destruct (on_ready_mounted log first rest v allowed Hu)
    as (Ha & Hi & Ht & Hl & Hv & Hm).
  fold s0 in Ha, Hi, Ht, Hl, Hv, Hm.
  destruct (run_window noise (on_ready s0) Hi Hall) as [v' Hv'].
  assert (s1 = set_video v' (on_ready s0)) as E1 by exact Hv'.
  assert (s2 = on_timeout (set_timers 0 s1)) as E2.
  { unfold s2. simpl. rewrite E1. simpl. by rewrite Ht. }
  assert (wf s2) as Hw.
  { unfold s2, s1. apply wf_step. apply wf_run. apply wf_mounted. }
  split; [by rewrite E1|]. split; [by rewrite E2|]. split.
  - rewrite E2, E1. split; [done|]. split; [exact Hv|exact Hm].
  - change s3 with (dispatchEvent EvVolumechange s2).
    rewrite (dispatchEvent_iter EvVolumechange s2 Hw).
    assert (length (elements s2) = 1) as Hl2 by (by rewrite E2, E1).
    assert (isInitializing s2 = false) as Hi2 by (by rewrite E2).
    assert (audioElement s2 = Some 0) as Ha2 by (by rewrite E2, E1).
    assert (0 < length (elements s2)) as Hlt2 by lia.
    destruct (iter_volumechange 0 s2 0 Hi2 Ha2 Hlt2) as [V M].
    rewrite Hl2, V, M. unfold art_volume, art_muted. by rewrite E2.
Qed.

Lemma guard_window_witness :
  let noise := [VideoChanged (with_volume 0.25%float video0);
                Fire EvVolumechange] in
  let s2 := step Timeout (run (Ready :: noise) demo) in
  volume (element 0 (step (Fire EvVolumechange) s2)) = 1%float
  ∧ muted (element 0 (step (Fire EvVolumechange) s2)) = false.
Proof.
  intros noise s2.
  refine (proj2 (proj2 (proj2
            (guard_window [] track_a [track_b] video0 true noise _ _)))).
  - discriminate.
  - repeat constructor.
Defined.

(** C2 as stated fails: inside the guard window the player resets its
    video element to full volume and the notification is ignored; when the
    window has elapsed the player is at full volume and unmuted, the guard
    is lifted, and the secondary element is still at volume 0.  The writes
    of the timer changed nothing on the video element, so no further
    volume-change event is due. *)
Lemma guard_window_leaves_secondary_silent :
  let s := run [Ready; VideoChanged video0; Fire EvVolumechange; Timeout]
               demo in
  isInitializing s = false
  ∧ timers s = 0
  ∧ volume (video s) = 1%float
  ∧ muted (video s) = false
  ∧ audioElement s = Some 0
  ∧ volume (element 0 s) = 0%float
  ∧ volume (element 0 s) ≠ volume (video s).
Proof.
  vm_compute. repeat split.
  intros H. apply (f_equal (λ x, PrimFloat.eqb x 0%float)) in H.
  vm_compute in H. discriminate.
Qed.

End GuardWindow.

Section Mounting.

Variable JSON_parse_qualities : string → Outcome JSON.
Variable JSON_parse_audioTracks : string → Outcome JSON.

(** A usable property is parsed without a throw, adds at most its own
    message to the console, and yields a list the code can go on with. *)
Lemma usable_parse {A} (decode : JSON → option A)
    (JSON_parse : string → Outcome JSON) (label : string)
    (p : option (PropValue A)) :
  usable decode JSON_parse p →
  ∃ raw arr extra,
    (∀ c, parse_variants JSON_parse label p c = Normal (raw, c ++ extra))
    ∧ selected decode raw = Normal arr.
Proof.
  destruct p as [[s|l]|]; simpl.
  - intros [->|[[e He]|(j & arr & Hj & Hsel)]].
    + exists None, None, []. split; [|done]. intros c. by rewrite app_nil_r.
    + case_bool_decide.
      * exists None, None, []. split; [|done]. intros c. by rewrite app_nil_r.
      * rewrite He. simpl. by exists None, None, [label].
    + case_bool_decide.
      * exists None, None, []. split; [|done]. intros c. by rewrite app_nil_r.
      * rewrite Hj. simpl. exists (Some (Raw j)), arr, [].
        split; [|done]. intros c. by rewrite app_nil_r.
  - intros _. exists (Some (Typed l)), (Some l), [].
    split; [|done]. intros c. by rewrite app_nil_r.
  - intros _. exists None, None, []. split; [|done].
    intros c. by rewrite app_nil_r.
Qed.

Lemma parse_variants_malformed {A} (JSON_parse : string → Outcome JSON)
    (label s e : string) (c : list string) :
  s ≠ "" → JSON_parse s = Throw e →
  parse_variants (A:=A) JSON_parse label (Some (PString s)) c
  = Normal (None, c ++ [label]).
Proof.
  intros Hs He. simpl. rewrite bool_decide_eq_false_2 by done.
  by rewrite He.
Qed.

(** [onMounted] once both properties are parsed and selected. *)
Lemma onMounted_assemble (props : Props) (env : Env)
    (rq : option (Variants Quality)) (ra : option (Variants AudioTrack))
    (qa : option (list Quality)) (ta : option (list AudioTrack))
    (eq ea : list string) :
  hasContainer env = true →
  (∀ c, parse_variants JSON_parse_qualities "Failed to parse qualities JSON:"
          (props_qualities props) c = Normal (rq, c ++ eq)) →
  (∀ c, parse_variants JSON_parse_audioTracks
          "Failed to parse audioTracks JSON:"
          (props_audioTracks props) c = Normal (ra, c ++ ea)) →
  selected quality_of_json rq = Normal qa →
  selected track_of_json ra = Normal ta →
  onMounted JSON_parse_qualities JSON_parse_audioTracks props env
  = Normal (Some (assemble props env (eq ++ ea) qa ta)).
Proof.
  intros Hc Hq Ha Hsq Hsa. unfold onMounted. rewrite Hc. simpl negb.
  cbv iota. rewrite Hq. cbn -[source_options parse_variants selected].
  rewrite Ha. cbn -[source_options selected]. rewrite Hsq.
  cbn -[source_options selected].
  unfold assemble.
  destruct (source_options qa (props_url props)) as [quality source].
  rewrite Hsa. simpl. by destruct ta as [[|t ts]|].
Qed.

(** X21: a malformed [audioTracks] string is logged as well and leaves
    the component without a session and without a settings entry. *)
Lemma malformed_audioTracks_no_session (props : Props) (env : Env)
    (s e : string) :
  hasContainer env = true →
  usable quality_of_json JSON_parse_qualities (props_qualities props) →
  props_audioTracks props = Some (PString s) → s ≠ "" →
  JSON_parse_audioTracks s = Throw e →
  ∃ m, onMounted JSON_parse_qualities JSON_parse_audioTracks props env
       = Normal (Some m)
    ∧ "Failed to parse audioTracks JSON:" ∈ mounted_console m
    ∧ session m = None
    ∧ setting m = None.
Proof.
  intros Hc Hu Ha Hs He.
  destruct (usable_parse quality_of_json JSON_parse_qualities
              "Failed to parse qualities JSON:" _ Hu)
    as (rq & qa & eq & Hq & Hsq).
  eexists. split.
  - apply (onMounted_assemble props env rq None qa None eq
             ["Failed to parse audioTracks JSON:"] Hc Hq); [|done|done].
    intros c. rewrite Ha. by apply parse_variants_malformed with (e := e).
  - simpl. split; [|by split].
    apply elem_of_app. right. by apply list_elem_of_singleton.
Qed.

(** What the component does with a [qualities] string that [JSON.parse]
    rejects: it does not throw; the failure is written to the console, no
    quality list reaches the player and the player's URL is the one of the
    [url] property, if that is set. *)
Theorem malformed_qualities_fall_back (props : Props) (env : Env)
    (s e : string) :
  hasContainer env = true →
  usable track_of_json JSON_parse_audioTracks (props_audioTracks props) →
  props_qualities props = Some (PString s) → s ≠ "" →
  JSON_parse_qualities s = Throw e →
  ∃ m,
    onMounted JSON_parse_qualities JSON_parse_audioTracks props env
    = Normal (Some m)
    ∧ "Failed to parse qualities JSON:" ∈ mounted_console m
    ∧ opt_quality (playerOptions m) = None
    ∧ opt_url (playerOptions m) = single_url (props_url props).
Proof.
  intros Hc Hu Hq Hs He.
  destruct (usable_parse track_of_json JSON_parse_audioTracks
              "Failed to parse audioTracks JSON:" _ Hu)
    as (ra & ta & ea & Ha & Hsa).
  eexists. split.
  - apply (onMounted_assemble props env None ra None ta
             ["Failed to parse qualities JSON:"] ea Hc); [|done|done|done].
    intros c. rewrite Hq. by apply parse_variants_malformed with (e := e).
  - assert ("Failed to parse qualities JSON:"
            ∈ ["Failed to parse qualities JSON:"] ++ ea) as Hin.
    { apply elem_of_app. left. by apply list_elem_of_singleton. }
    unfold assemble. destruct ta as [[|t ts]|]; simpl; done.
Qed.

End Mounting.

Lemma malformed_qualities_fall_back_witness :
  ∃ m,
    onMounted parse_empty_list parse_empty_list
      (mkProps (Some "v.mp4") (Some (PString "[{html:")) None None None)
      (mkEnv true "" "en-us" video0 true)
    = Normal (Some m)
    ∧ "Failed to parse qualities JSON:" ∈ mounted_console m
    ∧ opt_quality (playerOptions m) = None
    ∧ opt_url (playerOptions m) = Some "v.mp4".
Proof.
  apply (malformed_qualities_fall_back parse_empty_list parse_empty_list
           (mkProps (Some "v.mp4") (Some (PString "[{html:")) None None None)
           (mkEnv true "" "en-us" video0 true)
           "[{html:" "SyntaxError").
  - reflexivity.
  - exact I.
  - reflexivity.
  - discriminate.
  - reflexivity.
Defined.

(** C9: the claim fails on a string that [JSON.parse] accepts but that is
    not a list of variants.  The [try] encloses only [JSON.parse]: for the
    text [[null]] the parse succeeds, nothing is logged, and
    [qualitiesArray.find(q => q.default)] reads a property of [null], so
    [onMounted] throws a [TypeError] instead of falling back to the URL. *)
Theorem malformed_qualities_throw :
  onMounted parse_sample parse_sample
    (mkProps (Some "v.mp4") (Some (PString "[null]")) None None None)
    (mkEnv true "" "en-us" video0 true)
  = Throw "TypeError".
Proof. reflexivity. Qed.

(** * Further properties of the component *)

Section DefaultSelection.

Lemma find_first_true {A} (f : A → bool) (l : list A) (x : A) :
  find f l = Some x →
  ∃ l1 l2, l = l1 ++ x :: l2 ∧ f x = true ∧ Forall (λ y, f y = false) l1.
Proof.
  induction l as [|y l IH]; [done|]. simpl.
  destruct (f y) eqn:Hy.
  - intros [= ->]. by exists [], l.
  - intros Hx. destruct (IH Hx) as (l1 & l2 & -> & Hf & Hall).
    exists (y :: l1), l2. split; [done|]. split; [done|]. by constructor.
Qed.

Lemma find_none_all {A} (f : A → bool) (l : list A) :
  find f l = None → Forall (λ y, f y = false) l.
Proof.
  induction l as [|y l IH]; [done|]. simpl.
  destruct (f y) eqn:Hy; [done|]. intros Hn. constructor; [done|by apply IH].
Qed.

Lemma not_default_iff {A} (d : A → option bool) (y : A) :
  bool_decide (d y = Some true) = false ↔ d y ≠ Some true.
Proof. apply bool_decide_eq_false. Qed.

Lemma find_default_spec {A} (d : A → option bool) (l : list A) (x : A) :
  find_default d l = Some x → first_default d l x.
Proof.
  unfold find_default, first_default.
  destruct (find _ l) as [y|] eqn:Hf.
  - intros [= ->]. left.
    destruct (find_first_true _ _ _ Hf) as (l1 & l2 & -> & Hx & Hall).
    exists l1, l2. split; [done|]. split; [by apply bool_decide_eq_true in Hx|].
    eapply Forall_impl; [exact Hall|]. intros y. apply not_default_iff.
  - intros Hh. right. split; [|done].
    eapply Forall_impl; [exact (find_none_all _ _ Hf)|].
    intros y. apply not_default_iff.
Qed.

Lemma find_default_cons {A} (d : A → option bool) (x : A) (l : list A) :
  ∃ y, find_default d (x :: l) = Some y.
Proof.
  unfold find_default. destruct (find _ (x :: l)) as [y|]; by eexists.
Qed.

(** X5: the track that is current after mounting is the first one flagged
    as default, or the first of the list when none is flagged. *)
Theorem initial_track_is_first_default (log : list string)
    (first : AudioTrack) (rest : list AudioTrack) (v : HTMLMediaElement)
    (allowed : bool) :
  first_default track_default (first :: rest)
    (currentAudioTrack (mounted log first rest v allowed)).
Proof.
  simpl. unfold default_track.
  destruct (find_default_cons track_default first rest) as [y Hy].
  rewrite Hy. simpl. by apply find_default_spec.
Qed.

End DefaultSelection.

Section FindMap.

Lemma find_map {A B} (f : B → bool) (g : A → B) (l : list A) :
  find f (map g l) = g <$> find (λ x, f (g x)) l.
Proof.
  induction l as [|x l IH]; [done|]. simpl. by destruct (f (g x)).
Qed.

Lemma find_default_map {A} (d : A → option bool) (g : A → A) (l : list A) :
  (∀ x, d (g x) = d x) →
  find_default d (map g l) = g <$> find_default d l.
Proof.
  intros Hg. unfold find_default. rewrite find_map.
  assert (find (λ x, bool_decide (d (g x) = Some true)) l
          = find (λ x, bool_decide (d x = Some true)) l) as ->.
  { induction l as [|x l IH]; [done|]. simpl. by rewrite Hg, IH. }
  destruct (find _ l); [done|]. by destruct l.
Qed.

End FindMap.

Section MountingForms.

Variable JSON_parse_qualities : string → Outcome JSON.
Variable JSON_parse_audioTracks : string → Outcome JSON.

Local Abbreviation mount :=
  (onMounted JSON_parse_qualities JSON_parse_audioTracks).

Lemma source_options_cons (q : Quality) (qs : list Quality) (u : option string) :
  ∃ d, source_options (Some (q :: qs)) u
       = (Some (q :: qs), Some (quality_url d))
       ∧ first_default quality_default (q :: qs) d.
Proof.
  destruct (find_default_cons quality_default q qs) as [d Hd].
  exists d. split; [|by apply find_default_spec].
  unfold source_options. by rewrite Hd.
Qed.

Lemma typed_parse {A} (JSON_parse : string → Outcome JSON) (label : string)
    (l : list A) (c : list string) :
  parse_variants JSON_parse label (Some (PArray l)) c
  = Normal (Some (Typed l), c ++ []).
Proof. simpl. by rewrite app_nil_r. Qed.

(** X1: with a non-empty list of qualities the player gets the list and
    the URL of its first quality flagged as default, or of its first quality
    when none is flagged; the [url] property plays no part. *)
Theorem default_quality_url (props : Props) (env : Env)
    (q : Quality) (qs : list Quality) :
  hasContainer env = true →
  usable track_of_json JSON_parse_audioTracks (props_audioTracks props) →
  props_qualities props = Some (PArray (q :: qs)) →
  ∃ m d, mount props env = Normal (Some m)
    ∧ opt_quality (playerOptions m) = Some (q :: qs)
    ∧ opt_url (playerOptions m) = Some (quality_url d)
    ∧ first_default quality_default (q :: qs) d.
Proof.
  intros Hc Hu Hq.
  destruct (usable_parse track_of_json JSON_parse_audioTracks
              "Failed to parse audioTracks JSON:" _ Hu)
    as (ra & ta & ea & Ha & Hsa).
  destruct (source_options_cons q qs (props_url props)) as (d & Hd & Hfd).
  eexists. exists d. split.
  - apply (onMounted_assemble _ _ props env (Some (Typed (q :: qs))) ra
             (Some (q :: qs)) ta [] ea Hc); [|done|done|done].
    intros c. rewrite Hq. apply typed_parse.
  - unfold assemble. rewrite Hd. destruct ta as [[|t ts]|]; simpl; done.
Qed.

(** X4: an empty [qualities] string and an empty list of qualities both
    mount as if the property were absent; the empty string is not parsed, so
    nothing is logged for it. *)
Theorem empty_qualities_as_absent (props : Props) (env : Env) :
  props_qualities props = Some (PString "")
  ∨ props_qualities props = Some (PArray []) →
  mount props env = mount (without_qualities props) env.
Proof.
  intros [Hq|Hq]; unfold onMounted, without_qualities; simpl; rewrite Hq;
    reflexivity.
Qed.

(** X6: an empty [audioTracks] string and an empty list of tracks both
    mount as if the property were absent: no session, no settings entry. *)
Theorem empty_audioTracks_as_absent (props : Props) (env : Env) :
  props_audioTracks props = Some (PString "")
  ∨ props_audioTracks props = Some (PArray []) →
  mount props env = mount (with_audioTracks None props) env.
Proof.
  intros [Ha|Ha]; unfold onMounted, with_audioTracks; simpl; rewrite Ha;
    simpl.
  - reflexivity.
  - destruct (hasContainer env); simpl; [|done].
    destruct (parse_variants JSON_parse_qualities _ (props_qualities props) [])
      as [[rq c]|e|]; simpl; [|done|done].
    destruct (selected quality_of_json rq) as [qa|e|]; simpl; [|done|done].
    by destruct (source_options qa (props_url props)).
Qed.

(** X8: with a list of audio tracks, a session exists exactly when the
    list is not empty, and the settings entry exactly when it has more than
    one track.  The session starts with these tracks, without a secondary
    element and without listeners; the entry offers one item per track, in
    order, with the track's label and URL, under the label of the current
    track. *)
Theorem session_and_setting (props : Props) (env : Env)
    (l : list AudioTrack) :
  hasContainer env = true →
  usable quality_of_json JSON_parse_qualities (props_qualities props) →
  props_audioTracks props = Some (PArray l) →
  ∃ m, mount props env = Normal (Some m)
    ∧ (session m = None ↔ l = [])
    ∧ (setting m = None ↔ length l ≤ 1)
    ∧ (∀ s, session m = Some s →
         audioTracksArray s = l ∧ audioElement s = None
         ∧ elements s = [] ∧ listeners s = []
         ∧ console s = mounted_console m)
    ∧ (∀ tip items s, setting m = Some (tip, items) → session m = Some s →
         tip = html (currentAudioTrack s)
         ∧ map item_html items = map html l
         ∧ map item_value items = map url l).
Proof.
  intros Hc Hu Ha.
  destruct (usable_parse quality_of_json JSON_parse_qualities
              "Failed to parse qualities JSON:" _ Hu)
    as (rq & qa & eq & Hq & Hsq).
  eexists. split.
  - apply (onMounted_assemble _ _ props env rq (Some (Typed l)) qa (Some l)
             eq [] Hc Hq); [|done|done].
    intros c. rewrite Ha. apply typed_parse.
  - unfold assemble. destruct l as [|t ts]; simpl.
    + split; [done|]. split; [split; [lia|done]|]. split; [done|]. done.
    + split; [done|]. split.
      * case_bool_decide; split; try done; lia.
      * split.
        -- intros s [= <-]. done.
        -- intros tip items s Hs [= <-]. case_bool_decide; [|done].
           injection Hs as <- <-. split; [done|]. simpl.
           rewrite !map_map. simpl. done.
Qed.

Lemma source_map_drop_audioUrl {A} (g : A → A) (h : A → string)
    (d : A → option bool) (x : A) (l : list A) :
  (∀ y, d (g y) = d y) → (∀ y, h (g y) = h y) →
  h (default (g x) (find_default d (map g (x :: l))))
  = h (default x (find_default d (x :: l))).
Proof.
  intros Hd Hh. rewrite (find_default_map d g (x :: l) Hd).
  destruct (find_default d (x :: l)); simpl; by rewrite ?Hh.
Qed.

Lemma source_url_drop_audioUrl (l : list Quality) (u : option string) :
  snd (source_options (Some (map drop_audioUrl l)) u)
  = snd (source_options (Some l) u).
Proof.
  destruct l as [|q qs]; [done|].
  change (map drop_audioUrl (q :: qs))
    with (drop_audioUrl q :: map drop_audioUrl qs).
  unfold source_options. simpl snd. f_equal.
  by apply (source_map_drop_audioUrl drop_audioUrl quality_url
              quality_default q qs).
Qed.

(** X9: the [audioUrl] of a quality is never read.  Mounting with the
    qualities stripped of their [audioUrl] gives the player the same URL and
    the component the same session, settings entry and console. *)
Theorem quality_audioUrl_unused (props : Props) (env : Env)
    (l : list Quality) :
  hasContainer env = true →
  usable track_of_json JSON_parse_audioTracks (props_audioTracks props) →
  props_qualities props = Some (PArray l) →
  ∃ m m',
    mount props env = Normal (Some m)
    ∧ mount (with_qualities (Some (PArray (map drop_audioUrl l))) props) env
      = Normal (Some m')
    ∧ opt_url (playerOptions m) = opt_url (playerOptions m')
    ∧ session m = session m'
    ∧ setting m = setting m'
    ∧ mounted_console m = mounted_console m'.
Proof.
  intros Hc Hu Hq.
  destruct (usable_parse track_of_json JSON_parse_audioTracks
              "Failed to parse audioTracks JSON:" _ Hu)
    as (ra & ta & ea & Ha & Hsa).
  do 2 eexists. split; [|split].
  - apply (onMounted_assemble _ _ props env (Some (Typed l)) ra
             (Some l) ta [] ea Hc); [|done|done|done].
    intros c. rewrite Hq. apply typed_parse.
  - apply (onMounted_assemble _ _
             (with_qualities (Some (PArray (map drop_audioUrl l))) props) env
             (Some (Typed (map drop_audioUrl l))) ra
             (Some (map drop_audioUrl l)) ta [] ea Hc); [|done|done|done].
    intros c. apply typed_parse.
  - unfold assemble. simpl props_url.
    rewrite (source_url_drop_audioUrl l (props_url props)).
    destruct ta as [[|t ts]|]; simpl; done.
Qed.

End MountingForms.

Lemma default_quality_url_witness :
  ∃ m d, onMounted parse_empty_list parse_empty_list
           (mkProps (Some "v.mp4")
              (Some (PArray [mkQuality None "720p" "v720.mp4" None;
                             mkQuality (Some true) "1080p" "v1080.mp4" None]))
              None None None)
           (mkEnv true "" "en-us" video0 true)
         = Normal (Some m)
    ∧ opt_quality (playerOptions m)
      = Some [mkQuality None "720p" "v720.mp4" None;
              mkQuality (Some true) "1080p" "v1080.mp4" None]
    ∧ opt_url (playerOptions m) = Some (quality_url d)
    ∧ first_default quality_default
        [mkQuality None "720p" "v720.mp4" None;
         mkQuality (Some true) "1080p" "v1080.mp4" None] d.
Proof.
  apply (default_quality_url parse_empty_list parse_empty_list
           (mkProps (Some "v.mp4")
              (Some (PArray [mkQuality None "720p" "v720.mp4" None;
                             mkQuality (Some true) "1080p" "v1080.mp4" None]))
              None None None)
           (mkEnv true "" "en-us" video0 true)).
  - reflexivity.
  - exact I.
  - reflexivity.
Defined.

Lemma empty_qualities_as_absent_witness :
  onMounted parse_empty_list parse_empty_list
    (mkProps (Some "v.mp4") (Some (PString "")) None None None)
    (mkEnv true "" "en-us" video0 true)
  = onMounted parse_empty_list parse_empty_list
      (mkProps (Some "v.mp4") None None None None)
      (mkEnv true "" "en-us" video0 true).
Proof.
  apply (empty_qualities_as_absent parse_empty_list parse_empty_list
           (mkProps (Some "v.mp4") (Some (PString "")) None None None)
           (mkEnv true "" "en-us" video0 true)).
  left. reflexivity.
Defined.

Lemma empty_audioTracks_as_absent_witness :
  onMounted parse_empty_list parse_empty_list
    (mkProps (Some "v.mp4") None (Some (PArray [])) None None)
    (mkEnv true "" "en-us" video0 true)
  = onMounted parse_empty_list parse_empty_list
      (mkProps (Some "v.mp4") None None None None)
      (mkEnv true "" "en-us" video0 true).
Proof.
  apply (empty_audioTracks_as_absent parse_empty_list parse_empty_list
           (mkProps (Some "v.mp4") None (Some (PArray [])) None None)
           (mkEnv true "" "en-us" video0 true)).
  right. reflexivity.
Defined.

Lemma session_and_setting_witness :
  ∃ m, onMounted parse_empty_list parse_empty_list
         (mkProps (Some "v.mp4") None (Some (PArray [track_a; track_b]))
                  None None)
         (mkEnv true "" "en-us" video0 true)
       = Normal (Some m)
    ∧ (session m = None ↔ [track_a; track_b] = [])
    ∧ (setting m = None ↔ length [track_a; track_b] ≤ 1)
    ∧ (∀ s, session m = Some s →
         audioTracksArray s = [track_a; track_b] ∧ audioElement s = None
         ∧ elements s = [] ∧ listeners s = []
         ∧ console s = mounted_console m)
    ∧ (∀ tip items s, setting m = Some (tip, items) → session m = Some s →
         tip = html (currentAudioTrack s)
         ∧ map item_html items = map html [track_a; track_b]
         ∧ map item_value items = map url [track_a; track_b]).
Proof.
  apply (session_and_setting parse_empty_list parse_empty_list
           (mkProps (Some "v.mp4") None (Some (PArray [track_a; track_b]))
                    None None)
           (mkEnv true "" "en-us" video0 true) [track_a; track_b]).
  - reflexivity.
  - exact I.
  - reflexivity.
Defined.

Lemma malformed_audioTracks_no_session_witness :
  ∃ m, onMounted parse_empty_list parse_empty_list
         (mkProps (Some "v.mp4") None (Some (PString "[{url:")) None None)
         (mkEnv true "" "en-us" video0 true)
       = Normal (Some m)
    ∧ "Failed to parse audioTracks JSON:" ∈ mounted_console m
    ∧ session m = None
    ∧ setting m = None.
Proof.
  apply (malformed_audioTracks_no_session parse_empty_list parse_empty_list
           (mkProps (Some "v.mp4") None (Some (PString "[{url:")) None None)
           (mkEnv true "" "en-us" video0 true) "[{url:" "SyntaxError").
  - reflexivity.
  - exact I.
  - reflexivity.
  - discriminate.
  - reflexivity.
Defined.

Lemma quality_audioUrl_unused_witness :
  ∃ m m',
    onMounted parse_empty_list parse_empty_list
      (mkProps None
         (Some (PArray [mkQuality None "720p" "v720.mp4" (Some "a720.mp3")]))
         None None None)
      (mkEnv true "" "en-us" video0 true)
    = Normal (Some m)
    ∧ onMounted parse_empty_list parse_empty_list
        (mkProps None
           (Some (PArray [mkQuality None "720p" "v720.mp4" None]))
           None None None)
        (mkEnv true "" "en-us" video0 true)
      = Normal (Some m')
    ∧ opt_url (playerOptions m) = opt_url (playerOptions m')
    ∧ session m = session m'
    ∧ setting m = setting m'
    ∧ mounted_console m = mounted_console m'.
Proof.
  apply (quality_audioUrl_unused parse_empty_list parse_empty_list
           (mkProps None
              (Some (PArray [mkQuality None "720p" "v720.mp4"
                               (Some "a720.mp3")]))
              None None None)
           (mkEnv true "" "en-us" video0 true)
           [mkQuality None "720p" "v720.mp4" (Some "a720.mp3")]).
  - reflexivity.
  - exact I.
  - reflexivity.
Defined.

Section Frames.

Implicit Types (s : State) (u : string).

(** What [createAudioElement] leaves alone. *)
Lemma setup_currentAudioTrack u s :
  currentAudioTrack (setup u s) = currentAudioTrack s.
Proof. unfold setup, teardown_current. by destruct (audioElement s). Qed.

Lemma setup_audioTracksArray u s :
  audioTracksArray (setup u s) = audioTracksArray s.
Proof. unfold setup, teardown_current. by destruct (audioElement s). Qed.

Lemma setup_hostDestroyed u s : hostDestroyed (setup u s) = hostDestroyed s.
Proof. unfold setup, teardown_current. by destruct (audioElement s). Qed.

Lemma createAudioElement_audioElement u s :
  audioElement (createAudioElement u s) = Some (length (elements s)).
Proof.
  rewrite (q_audio _ _ (quiet_createAudioElement_tail u s)).
  apply setup_audioElement.
Qed.

Lemma createAudioElement_currentAudioTrack u s :
  currentAudioTrack (createAudioElement u s) = currentAudioTrack s.
Proof.
  rewrite (q_current _ _ (quiet_createAudioElement_tail u s)).
  apply setup_currentAudioTrack.
Qed.

Lemma createAudioElement_audioTracksArray u s :
  audioTracksArray (createAudioElement u s) = audioTracksArray s.
Proof.
  rewrite (q_tracks _ _ (quiet_createAudioElement_tail u s)).
  apply setup_audioTracksArray.
Qed.

Lemma createAudioElement_hostDestroyed u s :
  hostDestroyed (createAudioElement u s) = hostDestroyed s.
Proof.
  rewrite (q_host _ _ (quiet_createAudioElement_tail u s)).
  apply setup_hostDestroyed.
Qed.

Lemma createAudioElement_isInitializing u s :
  isInitializing (createAudioElement u s) = isInitializing s.
Proof.
  rewrite (q_init _ _ (quiet_createAudioElement_tail u s)).
  apply setup_isInitializing.
Qed.

Lemma createAudioElement_timers u s :
  timers (createAudioElement u s) = timers s.
Proof.
  rewrite (q_timers _ _ (quiet_createAudioElement_tail u s)).
  apply setup_timers.
Qed.

Lemma createAudioElement_src u s :
  src (element (length (elements s)) (createAudioElement u s)) = u.
Proof. by rewrite createAudioElement_new_element. Qed.

Lemma createAudioElement_body u s :
  wf s → body (createAudioElement u s) = [length (elements s)].
Proof.
  intros Hw. rewrite (q_body _ _ (quiet_createAudioElement_tail u s)).
  apply setup_body, Hw.
Qed.

End Frames.

Section Selecting.

Implicit Types (s : State).

Lemma find_elem {A} (f : A → bool) (l : list A) (t : A) :
  t ∈ l → f t = true → ∃ x, find f l = Some x ∧ f x = true ∧ x ∈ l.
Proof.
  induction l as [|y l IH]; intros Hin Ht.
  - by apply elem_of_nil in Hin.
  - simpl. destruct (f y) eqn:Hy.
    + exists y. split; [done|]. split; [done|]. apply elem_of_cons. by left.
    + apply elem_of_cons in Hin as [->|Hin]; [congruence|].
      destruct (IH Hin Ht) as (x & Hx & Hfx & Hxl).
      exists x. split; [done|]. split; [done|]. apply elem_of_cons. by right.
Qed.

(** X10: selecting the URL of a configured track always switches: the
    label of the chosen item is returned, the current track becomes a
    configured track with that URL, and a newly created element with that
    URL as source is the current one and the only one attached. *)
Theorem select_configured_track (item_html : string) (t : AudioTrack)
    (s : State) :
  reachable s → t ∈ audioTracksArray s →
  let r := onSelect item_html (url t) s in
  let new := length (elements s) in
  fst r = item_html
  ∧ url (currentAudioTrack (snd r)) = url t
  ∧ currentAudioTrack (snd r) ∈ audioTracksArray s
  ∧ audioTracksArray (snd r) = audioTracksArray s
  ∧ audioElement (snd r) = Some new
  ∧ src (element new (snd r)) = url t
  ∧ body (snd r) = [new].
Proof.
  intros Hr Hin. pose proof (reachable_wf s Hr) as Hw. cbv zeta.
  destruct (find_elem (λ x, bool_decide (url x = url t))
              (audioTracksArray s) t Hin)
    as (x & Hf & Hx & Hxl); [by apply bool_decide_eq_true|].
  apply bool_decide_eq_true in Hx.
  unfold onSelect. rewrite Hf. simpl fst. simpl snd.
  set (m := set_currentAudioTrack x s).
  assert (wf m) as Hwm by (revert Hw; by apply wf_frame).
  split; [done|].
  rewrite createAudioElement_currentAudioTrack.
  rewrite createAudioElement_audioTracksArray.
  split; [done|]. split; [done|]. split; [done|].
  split; [apply (createAudioElement_audioElement (url x) m)|].
  split.
  - rewrite <- Hx. apply (createAudioElement_src (url x) m).
  - by apply (createAudioElement_body (url x) m).
Qed.

Lemma select_configured_track_witness :
  fst (onSelect "B" (url track_b) (run [Ready] demo)) = "B"
  ∧ audioElement (snd (onSelect "B" (url track_b) (run [Ready] demo)))
    = Some 1.
Proof.
  assert (reachable (run [Ready] demo)) as Hr.
  { by exists [Ready], [], track_a, [track_b], video0, true. }
  assert (track_b ∈ audioTracksArray (run [Ready] demo)) as Hin.
  { apply elem_of_cons. right. apply elem_of_cons. by left. }
  destruct (select_configured_track "B" track_b (run [Ready] demo) Hr Hin)
    as (H1 & _ & _ & _ & H5 & _).
  split; [exact H1|exact H5].
Defined.

End Selecting.

Section Linked.

Implicit Types (s : State) (a i : nat).

Lemma src_update a i (f : HTMLMediaElement → HTMLMediaElement) s :
  (∀ e, src (f e) = src e) →
  src (element i (update_element a f s)) = src (element i s).
Proof.
  intros Hf. destruct (decide (a = i)) as [->|Hne].
  - unfold element, update_element. simpl. rewrite list_lookup_alter_eq.
    destruct (elements s !! i); simpl; [apply Hf|done].
  - by rewrite element_update_ne.
Qed.

Lemma src_el_play a i s : src (element i (el_play a s)) = src (element i s).
Proof.
  unfold el_play. simpl. destruct (playAllowed s); [|done].
  by apply (src_update a i (with_paused false) (emit (OpPlay a) s)).
Qed.

Lemma src_sync i s : src (element i (sync s)) = src (element i s).
Proof.
  unfold sync. destruct (audioElement s) as [a|]; [|done].
  destruct (negb _); [|done].
  by apply (src_update a i (with_currentTime (currentTime (video s))) s).
Qed.

Lemma src_listener ev i s :
  src (element i (listener ev s)) = src (element i s).
Proof.
  destruct ev; simpl.
  - unfold on_play. destruct (audioElement (sync s)) as [a|].
    + by rewrite src_el_play, src_sync.
    + apply src_sync.
  - unfold on_pause. destruct (audioElement s) as [a|]; [|done].
    by apply (src_update a i (with_paused true) s).
  - apply src_sync.
  - unfold on_volumechange. destruct (isInitializing s); [done|].
    destruct (audioElement s) as [a|]; [|done].
    assert (src (element i (el_set_muted a (art_muted s)
                              (el_set_volume a (art_volume s) s)))
            = src (element i s)) as Hm.
    { unfold el_set_muted.
      change (element i (emit ?o ?x)) with (element i x).
      rewrite src_update by done.
      by apply (src_update a i (with_volume (art_volume s)) s). }
    simpl. destruct (_ && _); [|exact Hm].
    by rewrite src_el_play.
Qed.

Lemma src_dispatchEvent ev i s :
  src (element i (dispatchEvent ev s)) = src (element i s).
Proof.
  unfold dispatchEvent. generalize (listeners s) as ls. intros ls.
  revert s. induction ls as [|l ls IH]; intros s; [done|].
  unfold run_listeners in *. simpl. case_decide.
  - by rewrite IH, src_listener.
  - apply IH.
Qed.

Lemma find_in {A} (f : A → bool) (l : list A) (x : A) :
  find f l = Some x → x ∈ l.
Proof.
  intros Hf. destruct (find_first_true f l x Hf) as (l1 & l2 & -> & _).
  apply elem_of_app. right. apply elem_of_cons. by left.
Qed.

Lemma default_track_in first rest : default_track first rest ∈ first :: rest.
Proof.
  unfold default_track, find_default.
  destruct (find _ (first :: rest)) as [y|] eqn:Hf; simpl.
  - by apply (find_in _ _ _ Hf).
  - apply elem_of_cons. by left.
Qed.

Lemma linked_createAudioElement (t : AudioTrack) s :
  t ∈ audioTracksArray s →
  linked (createAudioElement (url t) (set_currentAudioTrack t s)).
Proof.
  intros Hin. set (m := set_currentAudioTrack t s). split.
  - by rewrite createAudioElement_currentAudioTrack,
               createAudioElement_audioTracksArray.
  - intros a. rewrite createAudioElement_audioElement. intros [= <-].
    change (length (elements s)) with (length (elements m)).
    by rewrite createAudioElement_src, createAudioElement_currentAudioTrack.
Qed.

Lemma set_currentAudioTrack_id s :
  set_currentAudioTrack (currentAudioTrack s) s = s.
Proof. by destruct s. Qed.

Lemma linked_frame s s' :
  audioTracksArray s' = audioTracksArray s →
  currentAudioTrack s' = currentAudioTrack s →
  audioElement s' = audioElement s →
  (∀ i, src (element i s') = src (element i s)) →
  linked s → linked s'.
Proof.
  intros Ht Hc Ha Hs [Hl Hsrc]. split.
  - by rewrite Hc, Ht.
  - intros a. rewrite Ha, Hs, Hc. apply Hsrc.
Qed.

Lemma linked_step o s : linked s → linked (step o s).
Proof.
  intros Hl. destruct o as [| |ev|h v|r| |v|a d|a t|a|b].
  - simpl. unfold on_ready. case_bool_decide.
    + simpl.
      set (m := set_timers _ _).
      assert (m = set_currentAudioTrack (currentAudioTrack m) m) as Hm
        by (by rewrite set_currentAudioTrack_id).
      rewrite Hm. apply linked_createAudioElement. apply (linked_track s Hl).
    + revert Hl. by apply linked_frame.
  - simpl. destruct (timers s); [done|]. revert Hl. by apply linked_frame.
  - pose proof (quiet_dispatchEvent ev s) as Q. revert Hl.
    apply linked_frame; [apply Q..|]. intros i. apply src_dispatchEvent.
  - simpl. case_bool_decide; [|done]. unfold onSelect.
    destruct (find _ _) as [x|] eqn:Hf; [|done]. simpl.
    apply linked_createAudioElement. by apply (find_in _ _ _ Hf).
  - unfold step, destroy. split.
    + destruct (audioElement s); apply (linked_track s Hl).
    + intros a. destruct (audioElement s) eqn:Ha; simpl; [done|].
      rewrite Ha. done.
  - unfold step, onBeforeUnmount, destroy. split.
    + destruct (audioElement s); apply (linked_track s Hl).
    + intros a. destruct (audioElement s) eqn:Ha; simpl; [done|].
      rewrite Ha. done.
  - revert Hl. by apply linked_frame.
  - revert Hl. apply linked_frame; try done. intros i. by apply src_update.
  - revert Hl. apply linked_frame; try done. intros i. by apply src_update.
  - revert Hl. apply linked_frame; try done. intros i. by apply src_update.
  - revert Hl. by apply linked_frame.
Qed.

(** X11: in every state the component can reach, the current track is one
    of the configured tracks, and the current secondary element, if there is
    one, has the URL of the current track as its source. *)
Theorem selection_matches_source (s : State) :
  reachable s →
  currentAudioTrack s ∈ audioTracksArray s
  ∧ ∀ a, audioElement s = Some a →
         src (element a s) = url (currentAudioTrack s).
Proof.
  intros (ops & log & first & rest & v & allowed & ->).
  assert (linked (run ops (mounted log first rest v allowed))) as [H1 H2].
  { assert (linked (mounted log first rest v allowed)) as H0.
    { split; [apply default_track_in|done]. }
    revert H0. generalize (mounted log first rest v allowed) as s.
    induction ops as [|o ops IH]; intros s Hs; [done|].
    simpl. apply IH. by apply linked_step. }
  by split.
Qed.

Lemma selection_matches_source_witness :
  let s := run [Ready; Select "B" "b.mp3"; Fire EvPlay] demo in
  currentAudioTrack s ∈ audioTracksArray s
  ∧ ∀ a, audioElement s = Some a →
         src (element a s) = url (currentAudioTrack s).
Proof.
  intros s. apply (selection_matches_source s).
  by exists [Ready; Select "B" "b.mp3"; Fire EvPlay],
            [], track_a, [track_b], video0, true.
Defined.

End Linked.

Section Events.

Implicit Types (s : State) (a i : nat) (ev : VideoEvent).

Lemma on_pause_unfold s a :
  audioElement s = Some a → on_pause s = el_pause a s.
Proof. intros Ha. unfold on_pause. by rewrite Ha. Qed.

Lemma iter_on_pause_trace n s a :
  audioElement s = Some a →
  trace (Nat.iter n (listener EvPause) s) = trace s ++ replicate n (OpPause a).
Proof.
  intros Ha. induction n as [|n IH]; [by rewrite app_nil_r|].
  pose proof (quiet_iter EvPause n s) as Q.
  change (Nat.iter (S n) (listener EvPause) s)
    with (on_pause (Nat.iter n (listener EvPause) s)).
  rewrite (on_pause_unfold _ a) by (by rewrite (q_audio _ _ Q)).
  change (trace (el_pause a ?x)) with (trace x ++ [OpPause a]).
  by rewrite IH, <- app_assoc, <- replicate_S_end.
Qed.

(** X12: on a [pause] event of the primary the secondary element ends up
    paused; every registered pause listener calls [pause()] on it, and
    nothing else is done to the document or written to the console. *)
Theorem pause_event (s : State) (a : nat) :
  reachable s → audioElement s = Some a →
  let s' := dispatchEvent EvPause s in
  paused (element a s') = true
  ∧ trace s' = trace s ++ replicate (length (elements s)) (OpPause a)
  ∧ console s' = console s.
Proof.
  intros Hr Ha s'. pose proof (reachable_wf s Hr) as Hw.
  pose proof (wf_elem s Hw a Ha) as Hlt.
  unfold s'. rewrite (dispatchEvent_iter EvPause s Hw).
  split; [|split].
  - assert (∃ n, length (elements s) = S n) as [n ->].
    { exists (pred (length (elements s))). lia. }
    pose proof (quiet_iter EvPause n s) as Q.
    change (Nat.iter (S n) (listener EvPause) s)
      with (on_pause (Nat.iter n (listener EvPause) s)).
    rewrite (on_pause_unfold _ a) by (by rewrite (q_audio _ _ Q)).
    unfold el_pause. change (element a (emit ?o ?x)) with (element a x).
    rewrite element_update_eq; [done|]. by rewrite (q_len _ _ Q).
  - by apply iter_on_pause_trace.
  - generalize (length (elements s)) as n. intros n.
    induction n as [|n IH]; [done|].
    pose proof (quiet_iter EvPause n s) as Q.
    change (Nat.iter (S n) (listener EvPause) s)
      with (on_pause (Nat.iter n (listener EvPause) s)).
    rewrite (on_pause_unfold _ a) by (by rewrite (q_audio _ _ Q)).
    exact IH.
Qed.

Lemma pause_event_witness :
  let s := run [Ready; Select "B" "b.mp3";
                VideoChanged (playing_at 5%float video0); Fire EvPlay] demo in
  paused (element 1 (dispatchEvent EvPause s)) = true.
Proof.
  intros s.
  refine (proj1 (pause_event s 1 _ _)).
  - by exists [Ready; Select "B" "b.mp3";
              VideoChanged (playing_at 5%float video0); Fire EvPlay],
             [], track_a, [track_b], video0, true.
  - reflexivity.
Defined.





(** X14: synchronisation goes one way.  An event of the primary changes
    neither the primary element nor the document, the registered listeners,
    the current element, the selection or the guard; it only acts on
    properties of audio elements. *)
Theorem events_leave_primary_alone (ev : VideoEvent) (s : State) :
  let s' := dispatchEvent ev s in
  video s' = video s
  ∧ body s' = body s
  ∧ listeners s' = listeners s
  ∧ audioElement s' = audioElement s
  ∧ currentAudioTrack s' = currentAudioTrack s
  ∧ isInitializing s' = isInitializing s
  ∧ length (elements s') = length (elements s)
  ∧ ∀ i, audioElement s ≠ Some i →
         paused (element i s') = paused (element i s).
Proof.
  destruct (quiet_dispatchEvent ev s). cbv zeta. repeat split; done.
Qed.

(** X15: in every state the component can reach, every secondary element
    other than the current one is paused and is not in the document. *)
Theorem other_elements_silent (s : State) (i : nat) :
  reachable s → audioElement s ≠ Some i →
  paused (element i s) = true ∧ i ∉ body s.
Proof.
  intros Hr Hi. pose proof (reachable_wf s Hr) as Hw. split.
  - by apply (wf_paused s Hw).
  - rewrite (wf_body s Hw). destruct (audioElement s) as [a|]; simpl.
    + intros Hin. apply list_elem_of_singleton in Hin. congruence.
    + apply not_elem_of_nil.
Qed.

Lemma other_elements_silent_witness :
  let s := run [Ready; VideoChanged (playing_at 5%float video0); Fire EvPlay;
                Select "B" "b.mp3"] demo in
  paused (element 0 s) = true ∧ 0 ∉ body s.
Proof.
  intros s. apply (other_elements_silent s 0).
  - by exists [Ready; VideoChanged (playing_at 5%float video0); Fire EvPlay;
              Select "B" "b.mp3"], [], track_a, [track_b], video0, true.
  - discriminate.
Defined.

End Events.

Section Silence.

Implicit Types (s : State) (a i : nat) (ev : VideoEvent).

Lemma wants_resume_quiet s s' a :
  quiet s s' → paused (element a s') = paused (element a s) →
  wants_resume s' a = wants_resume s a.
Proof.
  intros Q Hp. unfold wants_resume, art_muted.
  by rewrite (q_video _ _ Q), Hp.
Qed.

Lemma iter_volumechange_idle n s a :
  isInitializing s = false → audioElement s = Some a →
  a < length (elements s) → wants_resume s a = false →
  let s' := Nat.iter n (listener EvVolumechange) s in
  trace s' = trace s ++ concat (replicate n [OpSetVolume a (art_volume s);
                                             OpSetMuted a (art_muted s)])
  ∧ paused (element a s') = paused (element a s)
  ∧ console s' = console s.
Proof.
  intros Hi Ha Hlt Hw. induction n as [|n IH]; cbv zeta.
  - simpl. by rewrite app_nil_r.
  - cbv zeta in IH. destruct IH as (Ht & Hp & Hc).
    pose proof (quiet_iter EvVolumechange n s) as Q.
    change (Nat.iter (S n) (listener EvVolumechange) s)
      with (on_volumechange (Nat.iter n (listener EvVolumechange) s)).
    set (m := Nat.iter n (listener EvVolumechange) s) in *.
    assert (isInitializing m = false) as Hi' by (by rewrite (q_init _ _ Q)).
    assert (audioElement m = Some a) as Ha' by (by rewrite (q_audio _ _ Q)).
    assert (a < length (elements m)) as Hlt' by (by rewrite (q_len _ _ Q)).
    assert (wants_resume m a = false) as Hw'.
    { by rewrite (wants_resume_quiet s m a Q Hp). }
    rewrite (on_volumechange_trace m a Hi' Ha' Hlt').
    rewrite (on_volumechange_element m a Hi' Ha' Hlt').
    rewrite (on_volumechange_unfold m a Hi' Ha' Hlt').
    rewrite Hw'. simpl andb. cbv iota. cbv zeta.
    unfold art_volume, art_muted. rewrite (q_video _ _ Q), Ht.
    rewrite concat_replicate_S, app_nil_r.
    split; [by rewrite <- !app_assoc|]. split; [exact Hp|exact Hc].
Qed.

(** X16: outside the guard window, a [volumechange] event that finds the
    primary paused, the player muted or the secondary already playing only
    copies volume and mute flag: no playback is requested and the play state
    of the secondary does not change. *)
Theorem volumechange_without_resume (s : State) (a : nat) :
  reachable s → audioElement s = Some a → isInitializing s = false →
  paused (video s) = true ∨ art_muted s = true
  ∨ paused (element a s) = false →
  let s' := dispatchEvent EvVolumechange s in
  trace s' = trace s ++ concat (replicate (length (elements s))
                                  [OpSetVolume a (art_volume s);
                                   OpSetMuted a (art_muted s)])
  ∧ paused (element a s') = paused (element a s)
  ∧ console s' = console s.
Proof.
  intros Hr Ha Hi Hno s'. pose proof (reachable_wf s Hr) as Hw.
  pose proof (wf_elem s Hw a Ha) as Hlt.
  unfold s'. rewrite (dispatchEvent_iter EvVolumechange s Hw).
  apply iter_volumechange_idle; try done.
  unfold wants_resume.
  destruct Hno as [-> | [-> | ->]]; simpl; try done.
  - by rewrite andb_false_r.
  - by rewrite andb_false_r.
Qed.

Lemma volumechange_without_resume_witness :
  let s := run [Ready; Timeout;
                VideoChanged (with_volume 0.5%float video0)] demo in
  paused (element 0 (dispatchEvent EvVolumechange s)) = paused (element 0 s).
Proof.
  intros s.
  refine (proj1 (proj2 (volumechange_without_resume s 0 _ _ _ _))).
  - by exists [Ready; Timeout; VideoChanged (with_volume 0.5%float video0)],
             [], track_a, [track_b], video0, true.
  - reflexivity.
  - reflexivity.
  - left. reflexivity.
Defined.

Lemma calm_refl s : calm s s.
Proof. split; try done. exists []. by rewrite app_nil_r. Qed.

Lemma calm_trans s1 s2 s3 : calm s1 s2 → calm s2 s3 → calm s1 s3.
Proof.
  intros [V1 A1 I1 (d1 & T1 & F1) P1] [V2 A2 I2 (d2 & T2 & F2) P2].
  split; try congruence.
  - exists (d1 ++ d2). split; [by rewrite T2, T1, app_assoc|].
    by apply Forall_app.
  - intros i Hi. by apply P2, P1.
Qed.

Lemma calm_write a (f : HTMLMediaElement → HTMLMediaElement) op s :
  (∀ b, op ≠ OpPlay b) → (∀ e, paused e = true → paused (f e) = true) →
  calm s (emit op (update_element a f s)).
Proof.
  intros Hop Hf. split; try done.
  - exists [op]. split; [done|]. by constructor.
  - intros i Hi.
    change (paused (element i (update_element a f s)) = true).
    destruct (decide (a = i)) as [->|Hne].
    + unfold element, update_element in *. simpl.
      rewrite list_lookup_alter_eq.
      destruct (elements s !! i); simpl in *; [by apply Hf|done].
    + by rewrite element_update_ne.
Qed.

Lemma calm_sync s : calm s (sync s).
Proof.
  unfold sync. destruct (audioElement s) as [a|]; [|apply calm_refl].
  destruct (negb _); [|apply calm_refl]. by apply calm_write.
Qed.

Lemma calm_listener ev s :
  ev ≠ EvPlay → paused (video s) = true → calm s (listener ev s).
Proof.
  intros Hev Hv. destruct ev; [done| | |]; simpl.
  - unfold on_pause. destruct (audioElement s) as [a|]; [|apply calm_refl].
    by apply calm_write.
  - apply calm_sync.
  - unfold on_volumechange. destruct (isInitializing s); [apply calm_refl|].
    destruct (audioElement s) as [a|]; [|apply calm_refl].
    change (video (el_set_muted ?a ?m (el_set_volume ?b ?v s))) with (video s).
    rewrite Hv. simpl.
    eapply calm_trans; [|by apply calm_write].
    by apply calm_write.
Qed.

(** X17: while the primary is paused, no event other than [play] starts
    anything: handling it requests no playback, and every secondary element
    that was paused stays paused. *)
Theorem paused_primary_keeps_silence (ev : VideoEvent) (s : State) :
  ev ≠ EvPlay → paused (video s) = true →
  let s' := dispatchEvent ev s in
  (∃ d, trace s' = trace s ++ d ∧ Forall (λ op, ∀ a, op ≠ OpPlay a) d)
  ∧ ∀ i, paused (element i s) = true → paused (element i s') = true.
Proof.
  intros Hev Hv. cbv zeta.
  assert (calm s (dispatchEvent ev s)) as [_ _ _ Ht Hp]; [|by split].
  unfold dispatchEvent. generalize (listeners s) as ls. intros ls.
  revert s Hv. induction ls as [|l ls IH]; intros s Hv; [apply calm_refl|].
  unfold run_listeners in *. simpl. case_decide; [|by apply IH].
  pose proof (calm_listener ev s Hev Hv) as C.
  eapply calm_trans; [exact C|]. apply IH. by rewrite (calm_video _ _ C).
Qed.

Lemma paused_primary_keeps_silence_witness :
  let s := run [Ready; Timeout; AudioLoaded 0 90%float;
                VideoChanged (with_currentTime 12%float video0)] demo in
  paused (element 0 (dispatchEvent EvSeeked s)) = true.
Proof.
  intros s.
  refine (proj2 (paused_primary_keeps_silence EvSeeked s _ _) 0 _).
  - discriminate.
  - reflexivity.
  - reflexivity.
Defined.

End Silence.

Section Lifecycle.

Implicit Types (s : State) (o : Op).

Lemma destroy_hostDestroyed r s :
  hostDestroyed (destroy r s) = S (hostDestroyed s).
Proof. unfold destroy. by destruct (audioElement s). Qed.

Lemma step_hostDestroyed o s :
  hostDestroyed (step o s) = hostDestroyed s + teardowns [o].
Proof.
  destruct o as [| |ev|h v|r| |v|a d|a t|a|b]; simpl teardowns;
    rewrite ?Nat.add_0_r, ?Nat.add_1_r.
  - simpl. unfold on_ready. case_bool_decide; [|done].
    by rewrite createAudioElement_hostDestroyed.
  - simpl. by destruct (timers s).
  - apply (q_host _ _ (quiet_dispatchEvent ev s)).
  - simpl. case_bool_decide; [|done]. unfold onSelect.
    destruct (find _ _); [|done]. simpl.
    by rewrite createAudioElement_hostDestroyed.
  - apply destroy_hostDestroyed.
  - apply (destroy_hostDestroyed (Some false)).
  - done.
  - done.
  - done.
  - done.
  - done.
Qed.

Lemma teardowns_cons o ops : teardowns (o :: ops) = teardowns [o] + teardowns ops.
Proof. by destruct o. Qed.

(** X18: the player's own [destroy] is called once by every teardown
    ([art.destroy] or unmounting), whether or not a secondary element
    exists, and by nothing else. *)
Theorem host_destroy_once_per_teardown (ops : list Op) (s : State) :
  hostDestroyed (run ops s) = hostDestroyed s + teardowns ops.
Proof.
  revert s. induction ops as [|o ops IH]; intros s.
  - simpl. lia.
  - simpl run. rewrite IH, step_hostDestroyed, (teardowns_cons o ops). lia.
Qed.

Lemma destroy_guard r s :
  isInitializing (destroy r s) = isInitializing s
  ∧ timers (destroy r s) = timers s.
Proof. unfold destroy. by destruct (audioElement s). Qed.

Lemma guard_step o s :
  (isInitializing s = true → 0 < timers s) →
  isInitializing (step o s) = true → 0 < timers (step o s).
Proof.
  intros Hg. destruct o as [| |ev|h v|r| |v|a d|a t|a|b].
  - intros _. simpl. unfold on_ready. case_bool_decide.
    + rewrite createAudioElement_timers. simpl. lia.
    + simpl. lia.
  - simpl. destruct (timers s) eqn:Ht.
    + intros Hi. specialize (Hg Hi). lia.
    + simpl. discriminate.
  - simpl. pose proof (quiet_dispatchEvent ev s) as Q.
    by rewrite (q_init _ _ Q), (q_timers _ _ Q).
  - simpl. case_bool_decide; [|done]. unfold onSelect.
    destruct (find _ _); [|done]. simpl.
    by rewrite createAudioElement_isInitializing, createAudioElement_timers.
  - change (step (Destroy r) s) with (destroy r s).
    destruct (destroy_guard r s) as [-> ->]. done.
  - change (step Unmount s) with (destroy (Some false) s).
    destruct (destroy_guard (Some false) s) as [-> ->]. done.
  - done.
  - done.
  - done.
  - done.
  - done.
Qed.

(** X19: the guard is never left up.  In every state the component can
    reach, whenever [isInitializing] is set a timer that will clear it is
    still pending. *)
Theorem guard_has_pending_timer (s : State) :
  reachable s → isInitializing s = true → 0 < timers s.
Proof.
  intros (ops & log & first & rest & v & allowed & ->).
  assert (isInitializing (mounted log first rest v allowed) = true →
          0 < timers (mounted log first rest v allowed)) as H0 by done.
  revert H0. generalize (mounted log first rest v allowed) as s.
  induction ops as [|o ops IH]; intros s Hs; [done|].
  simpl. apply IH. by apply guard_step.
Qed.

Lemma guard_has_pending_timer_witness :
  0 < timers (run [Ready; Ready; Timeout; Ready] demo).
Proof.
  apply (guard_has_pending_timer (run [Ready; Ready; Timeout; Ready] demo)).
  - by exists [Ready; Ready; Timeout; Ready],
             [], track_a, [track_b], video0, true.
  - reflexivity.
Defined.

(** X20: the ['ready'] handler always raises the guard, sets the volume of
    the primary element to 0 and arms one timer.  If the current track has a
    URL it replaces the secondary element by a new one with that URL, at
    volume 0 and with the player's mute flag, playing if the primary plays
    and the browser allows it; if the URL is empty it creates nothing and
    registers no listener. *)
Theorem ready_handler (s : State) :
  let s' := on_ready s in
  let new := length (elements s) in
  isInitializing s' = true
  ∧ volume (video s') = 0%float
  ∧ timers s' = S (timers s)
  ∧ (url (currentAudioTrack s) ≠ "" →
     audioElement s' = Some new
     ∧ element new s' =
         mkMedia (url (currentAudioTrack s)) "anonymous" "none" 0%float
                 (muted (video s))
                 (paused (video s) || negb (playAllowed s)) 0%float nan)
  ∧ (url (currentAudioTrack s) = "" →
     audioElement s' = audioElement s ∧ elements s' = elements s
     ∧ body s' = body s ∧ listeners s' = listeners s
     ∧ trace s' = trace s).
Proof.
  cbv zeta. unfold on_ready.
  set (m := set_timers (S (timers s))
              (set_video (with_volume 0 (video s))
                 (set_isInitializing true s))).
  change (url (currentAudioTrack (set_isInitializing true s)))
    with (url (currentAudioTrack s)).
  case_bool_decide as Hu.
  - rewrite createAudioElement_isInitializing, createAudioElement_timers.
    rewrite (q_video _ _ (quiet_createAudioElement_tail _ m)), setup_video.
    split; [done|]. split; [done|]. split; [done|]. split; [|done].
    intros _. split.
    + apply (createAudioElement_audioElement _ m).
    + change (length (elements s)) with (length (elements m)).
      by rewrite createAudioElement_new_element.
  - split; [done|]. split; [done|]. split; [done|]. split; [done|].
    intros _. done.
Qed.

End Lifecycle.
